(** * colly.py: a shallow embedding and its verified properties

    The development follows [colly.py] function by function.  Python values
    are modelled as follows.

    - [str] is a list of characters; characters are the 8-bit [ascii] type,
      read as the code points 0..255.
    - [int] is [Z]; [len] results are [nat] and are injected with [Z.of_nat]
      where the code compares them with an [int].
    - [Set[str]] is stdpp's [gset]; [List[...]] is [list].
    - [Optional[int]] is [option Z].
    - a caught exception is a value of the sum type [result]. *)

From Stdlib Require Import Ascii String ZArith Lia.
From stdpp Require Import base decidable option list list_numbers
  countable gmap fin_sets strings pretty.

Local Open Scope Z_scope.

(** ** Python strings *)

Abbreviation str := (list ascii).

(** A string literal of the source, as a [str]. *)
Definition py (s : string) : str := String.list_ascii_of_string s.

(** [s[:k]] for an arbitrary [int] bound: a negative bound counts from the
    end of the string. *)
Definition slice_to (s : str) (k : Z) : str :=
  if 0 <=? k then take (Z.to_nat k) s
  else take (length s - Z.to_nat (- k)) s.

(** ** truncate_string (colly.py, lines 88-90) *)

Definition truncate_string (s : str) (max_length : Z) : str :=
  if Z.of_nat (length s) >? max_length then slice_to s max_length else s.

(** ** find_min_truncation_length (colly.py, lines 126-136) *)

(** [{truncate_string(word, X) for word in words}] *)
Definition truncated_words (words : gset str) (X : Z) : gset str :=
  set_map (fun word => truncate_string word X) words.

(** [max(len(word) for word in words)], on a non-empty set. *)
Definition max_word_length (words : gset str) : nat :=
  max_list (length <$> elements words).

(** The test of line 134: [len(truncated_words) == len(words)]. *)
Definition width_passes (words : gset str) (X : Z) : bool :=
  Nat.eqb (size (truncated_words words X)) (size words).

(** The [for X in range(...)] loop, over the candidates still to try. *)
Fixpoint scan_widths (words : gset str) (candidates : list Z) : option Z :=
  match candidates with
  | [] => None
  | X :: rest =>
      if width_passes words X then Some X else scan_widths words rest
  end.

Definition find_min_truncation_length (words : gset str) (max_length : Z)
  : option Z :=
  if decide (words = ∅) then None
  else
    let min_possible_length := 1 in
    let max_possible_length :=
      Z.min (Z.of_nat (max_word_length words)) max_length in
    scan_widths words
      (seqZ min_possible_length
            (max_possible_length + 1 - min_possible_length)).

(** ** Prefix uniqueness, stated on the words themselves *)

(** The mapping [w -> w[:X]] is injective over [W]. *)
Definition prefix_injective (W : gset str) (X : Z) : Prop :=
  forall w1 w2, w1 ∈ W -> w2 ∈ W -> slice_to w1 X = slice_to w2 X -> w1 = w2.

(** Two distinct words of [W] share their length-[X] prefix. *)
Definition prefix_collision (W : gset str) (X : Z) : Prop :=
  exists w1 w2, w1 ∈ W /\ w2 ∈ W /\ w1 <> w2 /\ slice_to w1 X = slice_to w2 X.

(** ** Character classes

    The classes are those of Python 3 on the code points 0..255. *)

Definition code (c : ascii) : nat := nat_of_ascii c.

Definition in_ranges (ranges : list (nat * nat)) (c : ascii) : bool :=
  existsb (fun r => Nat.leb (fst r) (code c) && Nat.leb (code c) (snd r))
          ranges.

(** The class [\w] of the [re] module on [str] patterns: the alphanumeric
    characters and the underscore. *)
Definition is_word : ascii -> bool :=
  in_ranges [(48, 57); (65, 90); (95, 95); (97, 122); (170, 170);
             (178, 179); (181, 181); (185, 186); (188, 190); (192, 214);
             (216, 246); (248, 255)]%nat.
Arguments is_word : simpl never.

(** [str.isspace], which [strip] and [rstrip] use. *)
Definition is_space : ascii -> bool :=
  in_ranges [(9, 13); (28, 32); (133, 133); (160, 160)]%nat.
Arguments is_space : simpl never.

(** ** The pattern [\w+] (colly.py, lines 94 and 143)

    [\w+] is greedy and the engine takes the leftmost match, so the
    successive matches in a string are its maximal runs of word characters.
    [scan_words] cuts a string into these matches and the single characters
    between them. *)

Inductive piece : Type :=
  | Match (word : str)
  | Gap (c : ascii).

Fixpoint scan_words (content : str) : list piece :=
  match content with
  | [] => []
  | c :: rest =>
      if is_word c then
        match scan_words rest with
        | Match word :: pieces => Match (c :: word) :: pieces
        | pieces => Match [c] :: pieces
        end
      else Gap c :: scan_words rest
  end.

(** [re.findall(r'\w+', content)] *)
Definition re_findall_words (content : str) : list str :=
  omap (fun p => match p with Match word => Some word | Gap _ => None end)
       (scan_words content).

Definition piece_text (repl : str -> str) (p : piece) : str :=
  match p with Match word => repl word | Gap c => [c] end.

(** [re.sub(r'\w+', repl, content)] with a function [repl] of the matched
    text. *)
Definition re_sub_words (repl : str -> str) (content : str) : str :=
  concat (piece_text repl <$> scan_words content).

(** Apply [f] to the matched words and keep the gaps. *)
Definition map_matches (f : str -> str) (ps : list piece) : list piece :=
  (fun p => match p with Match w => Match (f w) | Gap c => Gap c end) <$> ps.

Definition matches_of (ps : list piece) : list str :=
  omap (fun p => match p with Match w => Some w | Gap _ => None end) ps.

(** A non-empty run of word characters. *)
Definition word_run (w : str) : Prop := w <> [] /\ forallb is_word w = true.

(** The shape of a scan: gaps are non-word characters, matches are
    non-empty runs of word characters, and no two matches are adjacent. *)
Fixpoint scanned (ps : list piece) : Prop :=
  match ps with
  | [] => True
  | Gap c :: ps' => is_word c = false /\ scanned ps'
  | Match w :: ps' =>
      word_run w /\
      match ps' with Match _ :: _ => False | _ => True end /\
      scanned ps'
  end.

(** ** get_unique_words (colly.py, lines 92-94) *)

Definition get_unique_words (content : str) : gset str :=
  list_to_set (re_findall_words content).

(** ** truncate_content (colly.py, lines 138-143) *)

Definition truncate_content (content : str) (X : Z) : str :=
  let truncate_match := fun word => truncate_string word X in
  re_sub_words truncate_match content.

(** The characters of a string that are not word characters, in order. *)
Definition non_word_chars (content : str) : str :=
  List.filter (fun c => negb (is_word c)) content.

(** ** Exceptions

    The code catches [ValueError] and nothing else; [OtherError] stands for
    every exception that an [except ValueError] clause lets through. *)

Inductive exn : Type := ValueError | OtherError.

Inductive result (A : Type) : Type :=
  | Ok (a : A)
  | Raise (e : exn).
Arguments Ok {A} a.
Arguments Raise {A} e.

#[global] Instance result_ret : MRet result := fun A a => Ok a.

#[global] Instance result_bind : MBind result := fun A B k r =>
  match r with Ok a => k a | Raise e => Raise e end.

(** ** Built-ins on strings *)

Fixpoint lstrip_with (p : ascii -> bool) (s : str) : str :=
  match s with
  | c :: rest => if p c then lstrip_with p rest else s
  | [] => []
  end.

Definition rstrip_with (p : ascii -> bool) (s : str) : str :=
  reverse (lstrip_with p (reverse s)).

Definition strip_with (p : ascii -> bool) (s : str) : str :=
  lstrip_with p (rstrip_with p s).

(** [s.strip()] and [s.rstrip()] *)
Definition strip (s : str) : str := strip_with is_space s.
Definition rstrip (s : str) : str := rstrip_with is_space s.

(** [s.split(sep, 1)]: at most one cut, at the first separator. *)
Fixpoint split_once (sep : ascii) (s : str) : list str :=
  match s with
  | [] => [[]]
  | c :: rest =>
      if Ascii.eqb c sep then [[]; rest]
      else match split_once sep rest with
           | head :: tail => (c :: head) :: tail
           | [] => [[c]]
           end
  end.

(** [a, b = parts]: unpacking raises [ValueError] unless there are exactly
    two values. *)
Definition unpack_pair (parts : list str) : result (str * str) :=
  match parts with
  | [a; b] => Ok (a, b)
  | _ => Raise ValueError
  end.

(** *** [int(text)] on a [str], base ten

    [int] skips white space at both ends, accepts one sign, then wants
    decimal digits, where single underscores may separate digits.  More
    than [int_max_str_digits] digits are refused (the default limit of the
    interpreter).  Every refusal is a [ValueError]. *)

Definition is_int_space : ascii -> bool :=
  in_ranges [(9, 13); (32, 32); (133, 133); (160, 160)]%nat.

Definition is_digit : ascii -> bool := in_ranges [(48, 57)]%nat.

Definition digit_value (c : ascii) : Z := Z.of_nat (code c) - 48.

Definition int_max_str_digits : Z := 4300.

(** [after_digit] tells whether the previous character was a digit; [acc]
    is the value and [count] the number of digits read so far. *)
Fixpoint int_digits (s : str) (after_digit : bool) (acc count : Z)
  : option Z :=
  match s with
  | [] =>
      if after_digit && (count <=? int_max_str_digits) then Some acc
      else None
  | c :: rest =>
      if Ascii.eqb c "_" then
        if after_digit then int_digits rest false acc count else None
      else if is_digit c then
        int_digits rest true (10 * acc + digit_value c) (count + 1)
      else None
  end.

Definition int_signed (s : str) : option Z :=
  match s with
  | c :: rest =>
      if Ascii.eqb c "+" then int_digits rest false 0 0
      else if Ascii.eqb c "-" then Z.opp <$> int_digits rest false 0 0
      else int_digits s false 0 0
  | [] => None
  end.

Definition py_int (text : str) : result Z :=
  match int_signed (strip_with is_int_space text) with
  | Some n => Ok n
  | None => Raise ValueError
  end.

(** ** parse_override_max_length (colly.py, lines 145-157) *)

(** The body of the [try] block for one entry. *)
Definition parse_override (override : str) : result (str * Z) :=
  '(pattern, length) ← unpack_pair (split_once ":" override);
  length ← py_int length;
  if length <=? 0 then Raise ValueError
  else Ok (pattern, length).

(** The message of [logging.error] at line 156. *)
Definition invalid_override_message (override : str) : str :=
  py "Invalid override format: " ++ override ++
  py ". Expected PATTERN:INTEGER".

(** The [for] loop, threading the list [parsed] and the log.  A
    [ValueError] is caught and logged; any other exception ends the run. *)
Fixpoint parse_override_loop (overrides : list str)
    (parsed : list (str * Z)) (log : list str)
  : result (list (str * Z) * list str) :=
  match overrides with
  | [] => Ok (parsed, log)
  | override :: rest =>
      match parse_override override with
      | Ok entry => parse_override_loop rest (parsed ++ [entry]) log
      | Raise ValueError =>
          parse_override_loop rest parsed
            (log ++ [invalid_override_message override])
      | Raise e => Raise e
      end
  end.

(** The result pairs the returned list with the error log. *)
Definition parse_override_max_length (overrides : list str)
  : result (list (str * Z) * list str) :=
  parse_override_loop overrides [] [].

(** *** The text of an INTEGER

    What the format [PATTERN:INTEGER] means by an integer, said on the
    text itself and not through the parser: white space, an optional sign,
    decimal digits where a single underscore may stand between two digits,
    white space; and no more than 4300 digits. *)

(** The value of a decimal digit is its place in [0123456789]. *)
Definition decimal_digit (c : ascii) : option Z :=
  (fun found : nat * ascii => Z.of_nat found.1) <$>
  list_find (fun d => d = c) (py "0123456789").

(** Tab, line feed, vertical tab, form feed, carriage return, space, next
    line and no-break space. *)
Definition int_white_space : list ascii :=
  ["009"; "010"; "011"; "012"; "013"; " "; "133"; "160"]%char.

(** [numeral s v k]: the text [s] is a digit followed by digits, each after
    at most one underscore; [v] is the number it writes in base ten and [k]
    the number of its digits. *)
Inductive numeral : str -> Z -> Z -> Prop :=
  | numeral_digit d u :
      decimal_digit d = Some u -> numeral [d] u 1
  | numeral_more s v k d u :
      numeral s v k -> decimal_digit d = Some u ->
      numeral (s ++ [d]) (10 * v + u) (k + 1)
  | numeral_underscore s v k d u :
      numeral s v k -> decimal_digit d = Some u ->
      numeral (s ++ ["_"; d]%char) (10 * v + u) (k + 1).

(** [integer_text text n]: [text] writes the integer [n]. *)
Definition integer_text (text : str) (n : Z) : Prop :=
  exists before sign body after v k,
    text = before ++ sign ++ body ++ after /\
    Forall (fun c => c ∈ int_white_space) before /\
    Forall (fun c => c ∈ int_white_space) after /\
    numeral body v k /\
    k <= 4300 /\
    (((sign = [] \/ sign = ["+"%char]) /\ n = v) \/
     (sign = ["-"%char] /\ n = - v)).

(** An entry [PATTERN:INTEGER]: the text before its first colon is the
    pattern, the text after it writes the width, and the width is
    positive. *)
Definition well_formed_override (override pattern : str) (width : Z)
  : Prop :=
  exists text,
    override = pattern ++ ":"%char :: text /\
    (":"%char ∉ pattern) /\
    integer_text text width /\
    0 < width.

(** The entries kept from a list of specifications, in order: each
    well-formed entry contributes its pair, every other entry nothing. *)
Inductive kept_entries : list str -> list (str * Z) -> Prop :=
  | kept_nil : kept_entries [] []
  | kept_keep override pattern width overrides entries :
      well_formed_override override pattern width ->
      kept_entries overrides entries ->
      kept_entries (override :: overrides) ((pattern, width) :: entries)
  | kept_drop override overrides entries :
      (forall pattern width, ~ well_formed_override override pattern width) ->
      kept_entries overrides entries ->
      kept_entries (override :: overrides) entries.

(** An entry that is not of that form: no colon at all, or after the first
    colon a text that writes no integer, or a width that is not positive. *)
Definition malformed_override (override : str) : Prop :=
  (":"%char ∉ override) \/
  exists pattern text,
    override = pattern ++ ":"%char :: text /\
    (":"%char ∉ pattern) /\
    ((forall n, ~ integer_text text n) \/
     exists width, integer_text text width /\ width <= 0).

(** ** Regular expressions as [fnmatch.translate] produces them

    [fnmatch.translate(pat)] returns the text [(?s:BODY)\Z].  [regex] is
    the syntax tree of such a text: under the flag [s] a dot matches every
    character, and [\Z] matches at the end of the string only. *)

Inductive re_item : Type :=
  | RChar (c : ascii)
  | RAny
  | RStar
  | RSet (negate : bool) (ranges : list (ascii * ascii))
  | REnd.

Abbreviation regex := (list re_item).

Definition in_set (ranges : list (ascii * ascii)) (c : ascii) : bool :=
  existsb (fun r => Nat.leb (code (fst r)) (code c) &&
                    Nat.leb (code c) (code (snd r))) ranges.

(** Whether an item that consumes one character accepts [c]. *)
Definition item_matches (item : re_item) (c : ascii) : bool :=
  match item with
  | RChar d => Ascii.eqb c d
  | RAny => true
  | RSet negate ranges => xorb negate (in_set ranges c)
  | RStar | REnd => false
  end.

(** A match of the whole of [r] that starts at the head of [s]; the match
    may stop before the end of [s]. *)
Fixpoint re_match_here (r : regex) (s : str) {struct r} : bool :=
  match r with
  | [] => true
  | REnd :: r' =>
      match s with [] => re_match_here r' [] | _ :: _ => false end
  | RStar :: r' =>
      (fix skip (s : str) : bool :=
         re_match_here r' s ||
         match s with [] => false | _ :: s' => skip s' end) s
  | item :: r' =>
      match s with
      | [] => false
      | c :: s' => item_matches item c && re_match_here r' s'
      end
  end.

(** [pattern.match(s) is not None] *)
Definition re_match (pattern : regex) (s : str) : bool :=
  re_match_here pattern s.

(** [pattern.search(s) is not None]: a match may start anywhere. *)
Fixpoint re_search (pattern : regex) (s : str) : bool :=
  re_match_here pattern s ||
  match s with [] => false | _ :: s' => re_search pattern s' end.

(** [re.compile] keeps the expression. *)
Definition re_compile (r : regex) : regex := r.

(** ** fnmatch

    A glob is read character by character.  After an opening bracket that
    is closed later, the text up to the closing bracket is a character
    set; a closing bracket that comes first in the set, or first after the
    negation mark, belongs to the set. *)

(** The items of a set, read left to right: [a-b] is a range, any other
    character stands for itself. *)
Inductive set_atom : Type :=
  | One (c : ascii)
  | Span (lo hi : ascii).

Fixpoint set_atoms (body : str) : list set_atom :=
  match body with
  | a :: rest =>
      match rest with
      | dash :: b :: rest' =>
          if Ascii.eqb dash "-" then Span a b :: set_atoms rest'
          else One a :: set_atoms rest
      | _ => One a :: set_atoms rest
      end
  | [] => []
  end.

Definition atom_range (a : set_atom) : ascii * ascii :=
  match a with One c => (c, c) | Span lo hi => (lo, hi) end.

(** A range whose upper end is below its lower end is removed. *)
Definition atom_kept (a : set_atom) : bool :=
  match a with
  | One _ => true
  | Span lo hi => Nat.leb (code lo) (code hi)
  end.

(** The set for the text [stuff] between the brackets.  A leading [!]
    negates the set; the test is made on the text that is left once the
    empty ranges are removed, as [fnmatch.translate] makes it. *)
Definition set_item (stuff : str) : re_item :=
  let atoms :=
    match stuff with
    | c :: body =>
        if Ascii.eqb c "!" then One c :: set_atoms body
        else set_atoms stuff
    | [] => []
    end in
  match List.filter atom_kept atoms with
  | One c :: rest =>
      if Ascii.eqb c "!" then RSet true (atom_range <$> rest)
      else RSet false (atom_range <$> One c :: rest)
  | Span lo hi :: rest =>
      if Ascii.eqb lo "!"
      then RSet true (("-", "-") :: (hi, hi) :: (atom_range <$> rest))%char
      else RSet false (atom_range <$> Span lo hi :: rest)
  | [] => RSet false []
  end.

(** Whether [stuff], read so far inside a set, can be closed. *)
Definition set_open (stuff : str) : bool :=
  match stuff with
  | [] => true
  | [c] => Ascii.eqb c "!"
  | _ => false
  end.

(** Whether the set that has [stuff] so far is closed in [pat]. *)
Fixpoint set_closes (pat : str) (stuff : str) : bool :=
  match pat with
  | [] => false
  | c :: rest =>
      if Ascii.eqb c "]" && negb (set_open stuff) then true
      else set_closes rest (stuff ++ [c])
  end.

(** [inside] is [Some stuff] while a set is being read. *)
Fixpoint glob_items (pat : str) (inside : option str) : regex :=
  match pat with
  | [] => []
  | c :: rest =>
      match inside with
      | Some stuff =>
          if Ascii.eqb c "]" && negb (set_open stuff)
          then set_item stuff :: glob_items rest None
          else glob_items rest (Some (stuff ++ [c]))
      | None =>
          if Ascii.eqb c "*" then RStar :: glob_items rest None
          else if Ascii.eqb c "?" then RAny :: glob_items rest None
          else if Ascii.eqb c "[" then
            if set_closes rest [] then glob_items rest (Some [])
            else RChar c :: glob_items rest None
          else RChar c :: glob_items rest None
      end
  end.

(** Consecutive stars count as one. *)
Fixpoint compress_stars (r : regex) : regex :=
  match r with
  | RStar :: r' =>
      match compress_stars r' with
      | RStar :: r'' => RStar :: r''
      | other => RStar :: other
      end
  | item :: r' => item :: compress_stars r'
  | [] => []
  end.

(** [fnmatch.translate(pat)] *)
Definition fnmatch_translate (pat : str) : regex :=
  compress_stars (glob_items pat None) ++ [REnd].

(** [os.path.normcase] on a POSIX system. *)
Definition normcase (s : str) : str := s.

(** [fnmatch.fnmatchcase(name, pat)] *)
Definition fnmatchcase (name pat : str) : bool :=
  re_match (re_compile (fnmatch_translate pat)) name.

(** [fnmatch.fnmatch(name, pat)] *)
Definition fnmatch (name pat : str) : bool :=
  fnmatchcase (normcase name) (normcase pat).

(** [os.path.basename(p)] on a POSIX system: the text after the last
    slash. *)
Definition basename (p : str) : str :=
  foldl (fun name c => if Ascii.eqb c "/" then [] else name ++ [c]) [] p.

(** ** compile_exclusion_patterns and is_excluded (colly.py, lines 59-68) *)

Definition compile_exclusion_patterns (exclusions : list str) : list regex :=
  (fun pattern => re_compile (fnmatch_translate pattern)) <$> exclusions.

Fixpoint is_excluded (path : str) (exclusion_patterns : list regex) : bool :=
  match exclusion_patterns with
  | [] => false
  | pattern :: rest =>
      if re_search pattern path then true else is_excluded path rest
  end.

(** A glob without [*], [?] and [[] is a bare name. *)
Definition bare_name (pat : str) : Prop :=
  Forall (fun c => c <> "*" /\ c <> "?" /\ c <> "[")%char pat.

(** ** match_override (colly.py, lines 159-164) *)

Fixpoint match_override (file_path : str) (overrides : list (str * Z))
  : option Z :=
  match overrides with
  | [] => None
  | (pattern, length) :: rest =>
      if fnmatch (basename file_path) pattern then Some length
      else match_override file_path rest
  end.

(** ** Module tables (colly.py, lines 29-57) *)

(** [d.get(key)] on a dictionary given by its items. *)
Fixpoint dict_get (key : str) (items : list (str * str)) : option str :=
  match items with
  | [] => None
  | (k, v) :: rest => if decide (k = key) then Some v else dict_get key rest
  end.

Definition language_identifier : list (str * str) :=
  (fun kv : string * string => (py kv.1, py kv.2)) <$>
  [(".ps1", "powershell"); (".txt", "plaintext"); (".py", "python");
   (".json", "json"); (".js", "javascript"); (".ts", "typescript");
   (".mjs", "javascript"); (".cjs", "javascript"); (".html", "html");
   (".css", "css"); (".scss", "scss"); (".less", "less"); (".xml", "xml");
   (".yml", "yaml"); (".yaml", "yaml"); (".md", "markdown");
   (".markdown", "markdown"); (".mdx", "mdx"); (".sh", "shell");
   (".bash", "shell"); (".zsh", "shell"); (".bat", "batch");
   (".cmd", "batch"); (".c", "c"); (".cpp", "cpp"); (".h", "cpp");
   (".hpp", "cpp"); (".cs", "csharp"); (".java", "java"); (".kt", "kotlin");
   (".kts", "kotlin"); (".go", "go"); (".rs", "rust"); (".swift", "swift");
   (".rb", "ruby"); (".php", "php"); (".r", "r"); (".jl", "julia");
   (".pl", "perl"); (".pm", "perl"); (".lua", "lua"); (".sql", "sql");
   (".ini", "ini"); (".toml", "toml"); (".cfg", "ini"); (".conf", "ini");
   (".dockerfile", "dockerfile"); (".makefile", "makefile");
   (".mk", "makefile"); (".cmake", "cmake"); (".asm", "asm"); (".s", "asm");
   (".v", "verilog"); (".sv", "systemverilog"); (".vhdl", "vhdl");
   (".hdl", "vhdl"); (".tex", "latex"); (".bib", "bibtex");
   (".rmd", "rmarkdown"); (".ipynb", "json")]%string.

Definition default_exclusions : list str :=
  py <$>
  ["node_modules"; "*.zip"; "*.pkl"; ".git"; ".vscode"; ".venv"; "venv";
   "env"; "__pycache__"; "*.pyc"; ".pytest_cache"; ".mypy_cache"; ".tox";
   ".coverage"; ".cache"; ".vs"; ".idea"; ".history"; ".next"; ".gradle";
   ".ipynb_checkpoints"; "build"; "dist"; "bin"; "obj"; "packages"; "lib";
   "include"; "target"; "out"; "backup"; "temp"; "tmp"; "logs"; "test";
   "downloads"; "releases"; ".exe"; "*.dll"; "*.so"; "*.dylib"; "*.whl";
   "*.egg"; "*.egg-info"; "*.lock"; "*.log"; "*.bak"; "*.tmp"; "*.swp";
   "*.swo"; "*.swn"; "*.swo"; "*.swn"; "*.swo"; "*.swn"; "*.swo"; ".zip";
   ".tar"; ".gz"; ".tgz"; ".bz2"; ".xz"; ".7z"; ".rar"; ".bak";
   ".old"]%string.

(** ** minify_python_code (colly.py, lines 82-86) *)

Definition newline : ascii := "010"%char.

(** [re.sub(r'#.*$', '', content, flags=re.MULTILINE)]: [.] stops at a
    newline, so each comment is removed up to the end of its line. *)
Fixpoint strip_comments (content : str) (in_comment : bool) : str :=
  match content with
  | [] => []
  | c :: rest =>
      if Ascii.eqb c newline then c :: strip_comments rest false
      else if in_comment then strip_comments rest true
      else if Ascii.eqb c "#" then strip_comments rest true
      else c :: strip_comments rest false
  end.

Definition is_line_break : ascii -> bool :=
  in_ranges [(10, 13); (28, 30); (133, 133)]%nat.

(** [s.splitlines()]: a carriage return followed by a line feed is one
    break, and a final break opens no further line. *)
Fixpoint splitlines_from (s : str) (line : str) (after_cr : bool)
  : list str :=
  match s with
  | [] => match line with [] => [] | _ => [line] end
  | c :: rest =>
      if Ascii.eqb c newline && after_cr then splitlines_from rest line false
      else if is_line_break c
      then line :: splitlines_from rest [] (Ascii.eqb c "013")
      else splitlines_from rest (line ++ [c]) false
  end.

Definition splitlines (s : str) : list str := splitlines_from s [] false.

(** [sep.join(parts)] *)
Fixpoint join (sep : str) (parts : list str) : str :=
  match parts with
  | [] => []
  | [part] => part
  | part :: rest => part ++ sep ++ join sep rest
  end.

Definition minify_python_code (content : str) : str :=
  let content := strip_comments content false in
  let lines :=
    strip <$> List.filter (fun line => negb (bool_decide (strip line = [])))
                          (splitlines content) in
  join [newline] lines.

(** ** process_single_file (colly.py, lines 318-355) *)

(** [s.lower()] *)
Definition lower_char (c : ascii) : ascii :=
  if in_ranges [(65, 90); (192, 214); (216, 222)]%nat c
  then ascii_of_nat (code c + 32) else c.

Definition lower (s : str) : str := lower_char <$> s.

(** [os.path.splitext(p)[1]]: the base name from its last dot on, when a
    character other than a dot comes before that dot, and nothing
    otherwise. *)
Definition splitext_ext (p : str) : str :=
  let '(stem, ext) :=
    foldl (fun '(stem, ext) c =>
             if Ascii.eqb c "." then (stem ++ ext, [c]) else (stem, ext ++ [c]))
          ([], []) (basename p) in
  match ext with
  | c :: _ =>
      if Ascii.eqb c "." && existsb (fun d => negb (Ascii.eqb d ".")) stem
      then ext else []
  | [] => []
  end.

(** What the function needs from the file system.  [read_text file_path
    default_encoding] is the text that [detect_encoding], [open] and
    [f.read()] produce, [None] when one of them raises; [relpath] is
    [os.path.relpath]. *)
Record file_system : Type := {
  read_text : str -> str -> option str;
  relpath : str -> result str
}.

(** Lines 339-343. *)
Definition apply_truncation (file_path content : str) (truncate : bool)
    (truncation_length : option Z) (overrides : list (str * Z)) : str :=
  if truncate then
    let override_max_length := match_override file_path overrides in
    let trunc_length :=
      match override_max_length with
      | Some width => Some width
      | None => truncation_length
      end in
    match trunc_length with
    | Some X => truncate_content content X
    | None => content
    end
  else content.

(** Lines 345-348. *)
Definition relative_path_of (fs : file_system) (file_path : str)
  : result str :=
  match relpath fs file_path with
  | Raise ValueError => Ok file_path
  | r => r
  end.

(** Lines 350-354. *)
Definition section_lines (relative_path language content : str)
  : list str :=
  [py "## " ++ relative_path;
   py "```" ++ language;
   rstrip content;
   py "```";
   []].

Definition process_single_file (fs : file_system)
    (file_path default_encoding : str) (minify_python truncate : bool)
    (truncation_length : option Z) (overrides : list (str * Z))
  : result (list str) :=
  let extension := lower (splitext_ext file_path) in
  let language :=
    default (py "plaintext") (dict_get extension language_identifier) in
  match read_text fs file_path default_encoding with
  | None => Ok []
  | Some content =>
      if decide (strip content = []) then Ok []
      else
        let content :=
          if minify_python && bool_decide (extension = py ".py")
          then minify_python_code content else content in
        let content :=
          apply_truncation file_path content truncate truncation_length
                           overrides in
        relative_path ← relative_path_of fs file_path;
        Ok (section_lines relative_path language content)
  end.

(** ** copy_to_clipboard (colly.py, lines 166-194) *)

(** The text of an [int] in an f-string. *)
Definition str_of_nat (n : nat) : str := py (pretty n).
Definition str_of_Z (n : Z) : str := py (pretty n).

Definition platform_commands : list (str * str) :=
  [(py "win32", py "clip");
   (py "darwin", py "pbcopy");
   (py "linux", py "xclip -selection clipboard")].

(** [range(0, stop, step)] for [stop >= 0]: a zero step raises
    [ValueError], a negative step gives no value. *)
Definition range_from_zero (stop step : Z) : result (list Z) :=
  if step =? 0 then Raise ValueError
  else if step <? 0 then Ok []
  else Ok ((fun k => k * step) <$> seqZ 0 ((stop + step - 1) / step)).

(** [s[i:j]] for [0 <= i <= j]. *)
Definition slice (s : str) (i j : Z) : str :=
  take (Z.to_nat (j - i)) (drop (Z.to_nat i) s).

(** Line 178: [[text[i:i + max_clip_length] for i in range(...)]]. *)
Definition text_chunks (text : str) (max_clip_length : Z)
  : result (list str) :=
  starts ← range_from_zero (Z.of_nat (length text)) max_clip_length;
  Ok ((fun i => slice text i (i + max_clip_length)) <$> (starts : list Z)).

(** Lines 182-185: the marker line put before chunk number [idx]. *)
Definition section_comment (idx num_chunks : nat) : str :=
  py "# Clipboard section " ++ str_of_nat idx ++ py " of " ++
  str_of_nat num_chunks ++
  (if Nat.ltb idx num_chunks
   then py ". It is imperative not to respond until all sections have been provided."
   else py ". All sections have been provided. You may proceed with the response.")
  ++ [newline].

(** The outcome of a run: what the clipboard command received, in order,
    and the log. *)
Record clipboard_trace : Type := {
  delivered : list str;
  clipboard_log : list str
}.

(** The [for] loop.  [run payload] is [None] when the command succeeds and
    the text of the [CalledProcessError] otherwise; the first failure ends
    the loop. *)
Fixpoint send_sections (run : str -> option str) (num_chunks idx : nat)
    (chunks : list str) (sent log : list str) : list str * list str :=
  match chunks with
  | [] => (sent, log)
  | chunk :: rest =>
      let chunk_with_comment := section_comment idx num_chunks ++ chunk in
      match run chunk_with_comment with
      | None =>
          send_sections run num_chunks (S idx) rest
                        (sent ++ [chunk_with_comment]) log
      | Some e =>
          (sent, log ++ [py "Failed to copy chunk " ++ str_of_nat idx ++
                         py " to clipboard: " ++ e])
      end
  end.

(** [platform] is [sys.platform]; [run cmd payload] is the clipboard
    command.  The pauses between sections are not modelled. *)
Definition copy_to_clipboard (platform : str)
    (run : str -> str -> option str) (text : str) (max_clip_length : Z)
  : result clipboard_trace :=
  match dict_get platform platform_commands with
  | None =>
      Ok {| delivered := [];
            clipboard_log :=
              [py "Clipboard copying not supported on " ++ platform] |}
  | Some cmd =>
      chunks ← text_chunks text max_clip_length;
      let num_chunks := length chunks in
      let '(sent, log) :=
        send_sections (run cmd) num_chunks 1 chunks [] [] in
      Ok {| delivered := sent;
            clipboard_log :=
              log ++ [py "Copied " ++ str_of_nat num_chunks ++
                      py " clipboard section(s)"] |}
  end.

(** A section without its first line. *)
Fixpoint drop_first_line (s : str) : str :=
  match s with
  | [] => []
  | c :: rest => if Ascii.eqb c newline then rest else drop_first_line rest
  end.

(** ** Paths and directories *)

(** [os.path.join(a, b)] on a POSIX system. *)
Definition path_join (a b : str) : str :=
  let b_is_absolute :=
    match b with c :: _ => Ascii.eqb c "/" | [] => false end in
  let a_ends_with_sep :=
    match last a with Some c => Ascii.eqb c "/" | None => false end in
  if b_is_absolute then b
  else if bool_decide (a = []) || a_ends_with_sep then a ++ b
  else a ++ "/"%char :: b.

(** What [os.walk] finds in a directory: its sub-directories in the order
    of the listing, each with its name, whether it is a symbolic link and
    what it holds, and the names of its other entries.  A directory that
    cannot be listed yields nothing in [os.walk]; it counts as empty
    here. *)
Inductive directory : Type :=
  | Directory (dirs : list subdirectory) (files : list str)
with subdirectory : Type :=
  | Subdirectory (dirname : str) (islink : bool) (sub : directory).

(** [os.walk(top, followlinks=followlinks)], top down, as the lists
    [(root, files_in_dir)] it yields.  Both callers replace [dirs] in place
    by the names [d] with [keep (os.path.join(root, d))] before the walk
    goes on, and the walk descends into what is left of [dirs], symbolic
    links only under [followlinks]. *)
Fixpoint walk (followlinks : bool) (keep : str -> bool) (top : str)
    (d : directory) {struct d} : list (str * list str) :=
  match d with
  | Directory dirs files =>
      (top, files) ::
      (fix walk_dirs (entries : list subdirectory)
         : list (str * list str) :=
         match entries with
         | [] => []
         | Subdirectory dirname islink sub :: rest =>
             let new_path := path_join top dirname in
             (if keep new_path && (followlinks || negb islink)
              then walk followlinks keep new_path sub else [])
             ++ walk_dirs rest
         end) dirs
  end.

(** What [os.path.isfile] and [os.path.isdir] say of an existing path. *)
Inductive path_kind : Type :=
  | IsFile
  | IsDir (d : directory)
  | IsOther.

(** [abspath] is [os.path.abspath]; [path_lookup p] is [None] when
    [os.path.exists(p)] is false. *)
Record path_system : Type := {
  abspath : str -> str;
  path_lookup : str -> option path_kind
}.

(** A [for] loop over [items] whose body may raise. *)
Fixpoint for_each {A S : Type} (body : A -> S -> result S)
    (items : list A) (st : S) : result S :=
  match items with
  | [] => Ok st
  | item :: rest =>
      match body item st with
      | Ok st' => for_each body rest st'
      | Raise e => Raise e
      end
  end.

(** ** collect_unique_words (colly.py, lines 96-124) *)

(** The [try] block: a file that cannot be read adds nothing. *)
Definition read_words (fs : file_system) (default_encoding path : str)
    (words : gset str) : gset str :=
  match read_text fs path default_encoding with
  | Some content => words ∪ get_unique_words content
  | None => words
  end.

Definition collect_unique_words (fs : file_system) (ps : path_system)
    (files : list str) (exclusion_patterns : list regex)
    (default_encoding : str) : gset str :=
  foldl
    (fun words file_path =>
       let full_path := abspath ps file_path in
       match path_lookup ps full_path with
       | None => words
       | Some kind =>
           if is_excluded full_path exclusion_patterns then words
           else
             match kind with
             | IsFile => read_words fs default_encoding full_path words
             | IsDir d =>
                 foldl
                   (fun words '(root, files_in_dir) =>
                      foldl
                        (fun words file_name =>
                           let file_full_path := path_join root file_name in
                           if is_excluded file_full_path exclusion_patterns
                           then words
                           else read_words fs default_encoding
                                           file_full_path words)
                        words files_in_dir)
                   words
                   (walk false
                         (fun p => negb (is_excluded p exclusion_patterns))
                         full_path d)
             | IsOther => words
             end
       end)
    ∅ files.

(** ** build_verbose_output (colly.py, lines 196-261) *)

(** Lines 204-213 and 274-283: the width for the files without
    override. *)
Definition global_truncation_length (truncate : bool)
    (unique_words : gset str) (max_length : Z) : option Z :=
  if truncate then find_min_truncation_length unique_words max_length
  else None.

(** [argv] is [sys.argv[1:]]. *)
Definition build_verbose_output (argv : list str) (truncate : bool)
    (unique_words : gset str) (max_length : Z)
    (overrides : list (str * Z)) (follow_symlinks : bool)
    (default_encoding : str) (minify_python : bool)
    (exclusion_patterns : list regex) : list str :=
  let truncation_length :=
    global_truncation_length truncate unique_words max_length in
  [py "# Introduction";
   py "This output was created by colly.py. It gathers and processes files with optional transformations.";
   []] ++
  (if truncate then
     [py "# Truncation Details"] ++
     match truncation_length with
     | Some X =>
         [py "- A minimal truncation length of " ++ str_of_Z X ++
          py " was determined to preserve word uniqueness.";
          py "- Words longer than " ++ str_of_Z X ++
          py " characters may have been truncated in files without overrides."]
     | None =>
         [py "- No suitable minimal truncation length was found within the allowed range -- meaning the truncation length was not set to a value that would preserve word uniqueness in the files.";
          py "- Global truncation was not applied to files without overrides."]
     end ++
     match overrides with
     | [] => []
     | _ :: _ =>
         [py "- Truncation overrides were applied to specific file patterns."]
     end ++
     (if bool_decide (max_length <> 80)
      then [py "- The maximum allowed word length for truncation was set to "
            ++ str_of_Z max_length ++ py "."]
      else []) ++
     [[]]
   else [[]]) ++
  (if minify_python then
     [py "# Python Minification";
      py "- Python files were minified by removing comments and extra whitespace.";
      []]
   else []) ++
  (if follow_symlinks then
     [py "# Symlink Following";
      py "- Symbolic links were followed during file traversal.";
      []]
   else []) ++
  match exclusion_patterns with
  | [] => []
  | _ :: _ =>
      [py "# Exclusions";
       py "- Certain files or directories were excluded based on patterns.";
       []]
  end ++
  (if bool_decide (default_encoding <> py "utf-8") then
     [py "# Encoding";
      py "- Default encoding set to: " ++ default_encoding;
      []]
   else []) ++
  [py "# Script Run Parameters";
   py "```";
   join (py " ") argv;
   py "```";
   []].

(** ** process_files (colly.py, lines 263-316) *)

(** Lines 291-294 and 301-304: a file that gives lines is appended and
    counted.  The state is [(output, num_files_processed)]. *)
Definition process_one (fs : file_system) (default_encoding : str)
    (minify_python truncate : bool) (truncation_length : option Z)
    (overrides : list (str * Z)) (path : str) (st : list str * nat)
  : result (list str * nat) :=
  match process_single_file fs path default_encoding minify_python
                            truncate truncation_length overrides with
  | Ok [] => Ok st
  | Ok result => Ok (st.1 ++ result, S st.2)
  | Raise e => Raise e
  end.

Definition process_files (fs : file_system) (ps : path_system)
    (argv : list str) (files : list str) (exclusion_patterns : list regex)
    (follow_symlinks : bool) (default_encoding : str)
    (minify_python truncate : bool) (max_length : Z)
    (overrides : list (str * Z)) (unique_words : gset str) (verbose : bool)
  : result str :=
  let output :=
    if verbose
    then build_verbose_output argv truncate unique_words max_length overrides
                              follow_symlinks default_encoding minify_python
                              exclusion_patterns
    else [] in
  let truncation_length :=
    global_truncation_length truncate unique_words max_length in
  let process :=
    process_one fs default_encoding minify_python truncate truncation_length
                overrides in
  match
    for_each
      (fun file_path st =>
         let full_path := abspath ps file_path in
         match path_lookup ps full_path with
         | None => Ok st
         | Some kind =>
             if is_excluded full_path exclusion_patterns then Ok st
             else
               match kind with
               | IsFile => process full_path st
               | IsDir d =>
                   for_each
                     (fun '(root, files_in_dir) st =>
                        for_each
                          (fun file_name st =>
                             let file_full_path :=
                               path_join root file_name in
                             if is_excluded file_full_path exclusion_patterns
                             then Ok st
                             else process file_full_path st)
                          files_in_dir st)
                     (walk follow_symlinks
                           (fun p => negb (is_excluded p exclusion_patterns))
                           full_path d)
                     st
               | IsOther => Ok st
               end
         end)
      files (output, 0%nat)
  with
  | Ok (output, num_files_processed) =>
      Ok (join [newline]
            (output ++
             if verbose
             then [py "# Summary";
                   py "- Number of files processed: " ++
                   str_of_nat num_files_processed;
                   []]
             else []))
  | Raise e => Raise e
  end.

(** ** The files of a traversal

    [collect_unique_words] and [process_files] go through their arguments
    with the same loops.  [visited_files] lists, in order, the paths that
    these loops hand to the reader. *)

Definition walked_files (followlinks : bool)
    (exclusion_patterns : list regex) (top : str) (d : directory)
  : list str :=
  flat_map
    (fun '(root, files_in_dir) =>
       List.filter (fun p => negb (is_excluded p exclusion_patterns))
                   (path_join root <$> files_in_dir))
    (walk followlinks (fun p => negb (is_excluded p exclusion_patterns))
          top d).

Definition visited_files (ps : path_system) (followlinks : bool)
    (exclusion_patterns : list regex) (files : list str) : list str :=
  flat_map
    (fun file_path =>
       let full_path := abspath ps file_path in
       match path_lookup ps full_path with
       | None => []
       | Some kind =>
           if is_excluded full_path exclusion_patterns then []
           else
             match kind with
             | IsFile => [full_path]
             | IsDir d =>
                 walked_files followlinks exclusion_patterns full_path d
             | IsOther => []
             end
       end)
    files.

(** [walk_reaches followlinks keep top d root files_in_dir]: the walk of
    [d] from [top] comes to the directory [root], which holds
    [files_in_dir], through sub-directories that are all kept and that are
    symbolic links only under [followlinks]. *)
Inductive walk_reaches (followlinks : bool) (keep : str -> bool)
  : str -> directory -> str -> list str -> Prop :=
  | reaches_top top dirs files :
      walk_reaches followlinks keep top (Directory dirs files) top files
  | reaches_sub top dirs files dirname islink sub root files_in_dir :
      Subdirectory dirname islink sub ∈ dirs ->
      keep (path_join top dirname) = true ->
      followlinks || negb islink = true ->
      walk_reaches followlinks keep (path_join top dirname) sub
                   root files_in_dir ->
      walk_reaches followlinks keep top (Directory dirs files)
                   root files_in_dir.

(** The number of files that gave a section, among the results of
    [process_single_file]. *)
Definition sections_given (results : list (list str)) : nat :=
  length (List.filter (fun r => negb (bool_decide (r = []))) results).

(** ** Fixtures *)

(** The word set of the end-to-end fixture: [cat caterpillar] and
    [dog dogma]. *)
Definition fixture_words : gset str :=
  {[ py "cat"; py "caterpillar"; py "dog"; py "dogma" ]}.

Definition cat_words : gset str := {[ py "cat"; py "caterpillar" ]}.

(** A file system with one readable file. *)
Definition fixture_fs : file_system :=
  {| read_text := fun file_path _ =>
       if decide (file_path = py "/src/main.py")
       then Some (py "alphabet soup") else None;
     relpath := fun file_path => Ok (drop 1 file_path) |}.

(** A clipboard command that never fails. *)
Definition fixture_run : str -> str -> option str := fun _ _ => None.

Definition fixture_content : str := py "cat caterpillar, dog; dogma cat".

(** A clipboard command that refuses every section whose number is 2. *)
Definition fixture_run_fails : str -> str -> option str :=
  fun _ payload =>
    if bool_decide (py "# Clipboard section 2 " `prefix_of` payload)
    then Some (py "exit status 1") else None.

Definition fixture_python : str :=
  py "import os  # system" ++ newline :: newline ::
  py "def f(x):" ++ newline ::
  py "    return x  # identity" ++ [newline].

(** A source tree with a build directory, and its two text files. *)
Definition fixture_ps : path_system :=
  {| abspath := fun file_path => py "/work/" ++ file_path;
     path_lookup := fun full_path =>
       if decide (full_path = py "/work/src")
       then Some (IsDir (Directory
                           [Subdirectory (py "build") false
                              (Directory [] [py "out.txt"]);
                            Subdirectory (py "docs") false
                              (Directory [] [py "notes.txt"])]
                           [py "main.txt"]))
       else None |}.

Definition fixture_tree_fs : file_system :=
  {| read_text := fun file_path _ =>
       if decide (file_path = py "/work/src/main.txt")
       then Some (py "cat caterpillar")
       else if decide (file_path = py "/work/src/docs/notes.txt")
       then Some (py "dog dogma")
       else None;
     relpath := fun file_path => Ok (drop 6 file_path) |}.

(** * Properties of the truncation-length solver *)

Section set_map_size.
Context {A B : Type}.
Context {eqA : EqDecision A} {cntA : Countable A}.
Context {eqB : EqDecision B} {cntB : Countable B}.
Implicit Types (f : A -> B) (l : list A) (X : gset A).

Lemma size_list_to_set_le (k : list B) :
  (size (list_to_set k : gset B) <= length k)%nat.
Proof.
  induction k as [|y k IH].
  - rewrite list_to_set_nil, size_empty. done.
  - rewrite list_to_set_cons, length_cons.
    destruct (decide (y ∈ (list_to_set k : gset B))) as [Hin|Hin].
    + assert ({[y]} ∪ list_to_set k = (list_to_set k : gset B)) as Heq.
      { apply subseteq_union_1_L. by apply singleton_subseteq_l. }
      rewrite Heq. lia.
    + rewrite size_union by set_solver. rewrite size_singleton. lia.
Qed.

Lemma size_list_to_set_full (k : list B) :
  size (list_to_set k : gset B) = length k -> NoDup k.
Proof.
  induction k as [|y k IH]; intros Hsz.
  - constructor.
  - rewrite list_to_set_cons, length_cons in Hsz.
    pose proof (size_list_to_set_le k) as Hle.
    destruct (decide (y ∈ (list_to_set k : gset B))) as [Hin|Hin].
    + assert ({[y]} ∪ list_to_set k = (list_to_set k : gset B)) as Heq.
      { apply subseteq_union_1_L. by apply singleton_subseteq_l. }
      rewrite Heq in Hsz. lia.
    + rewrite size_union in Hsz by set_solver.
      rewrite size_singleton in Hsz.
      constructor; [set_solver | apply IH; lia].
Qed.

Lemma NoDup_fmap_inj_on f l :
  NoDup (f <$> l) ->
  forall x y, x ∈ l -> y ∈ l -> f x = f y -> x = y.
Proof.
  induction l as [|a l IH]; simpl; intros Hnd x y Hx Hy Hxy.
  - by apply elem_of_nil in Hx.
  - apply NoDup_cons in Hnd as [Hna Hnd].
    apply elem_of_cons in Hx as [->|Hx]; apply elem_of_cons in Hy as [->|Hy].
    + done.
    + exfalso. apply Hna. rewrite Hxy. by apply list_elem_of_fmap_2.
    + exfalso. apply Hna. rewrite <- Hxy. by apply list_elem_of_fmap_2.
    + by apply IH.
Qed.

Lemma fmap_dup_collision f l :
  NoDup l -> ~ NoDup (f <$> l) ->
  exists x y, x ∈ l /\ y ∈ l /\ x <> y /\ f x = f y.
Proof.
  induction l as [|a l IH]; simpl; intros Hnd Hdup.
  - destruct Hdup. constructor.
  - apply NoDup_cons in Hnd as [Hna Hnd].
    destruct (decide (f a ∈ f <$> l)) as [Hin|Hin].
    + apply list_elem_of_fmap in Hin as (y & Hfy & Hy).
      exists a, y. repeat split; [left | by right | | done].
      intros ->. done.
    + destruct (decide (NoDup (f <$> l))) as [Hok|Hbad].
      * destruct Hdup. by constructor.
      * destruct (IH Hnd Hbad) as (x & y & Hx & Hy & Hne & Hxy).
        exists x, y. repeat split; [by right | by right | done | done].
Qed.

(** The cardinality test of the solver is exactly injectivity on the set. *)
Lemma size_set_map_inj_on f X :
  size (set_map f X : gset B) = size X <->
  (forall x y, x ∈ X -> y ∈ X -> f x = f y -> x = y).
Proof.
  unfold set_map. split.
  - intros Hsz x y Hx Hy.
    apply (NoDup_fmap_inj_on f (elements X)); [|by apply elem_of_elements..].
    apply size_list_to_set_full. rewrite Hsz, length_fmap. done.
  - intros Hinj. rewrite size_list_to_set.
    + by rewrite length_fmap.
    + apply NoDup_fmap_2_strong; [|apply NoDup_elements].
      intros x y Hx Hy. apply Hinj; by apply elem_of_elements.
Qed.

Lemma size_set_map_collision f X :
  size (set_map f X : gset B) <> size X ->
  exists x y, x ∈ X /\ y ∈ X /\ x <> y /\ f x = f y.
Proof.
  intros Hsz.
  destruct (fmap_dup_collision f (elements X)) as (x & y & Hx & Hy & Hne & Hxy).
  - apply NoDup_elements.
  - intros Hnd. apply Hsz. unfold set_map.
    rewrite size_list_to_set by done. by rewrite length_fmap.
  - exists x, y. repeat split; try done; by apply elem_of_elements.
Qed.
End set_map_size.

Section solver.
Implicit Types (W : gset str) (w s : str) (X Y : Z).

Lemma truncate_string_slice s X : truncate_string s X = slice_to s X.
Proof.
  unfold truncate_string, slice_to.
  destruct (Z.gtb_spec (Z.of_nat (length s)) X) as [Hgt|Hle]; [done|].
  destruct (Z.leb_spec 0 X) as [_|Hneg]; [|lia].
  symmetry. apply take_ge. lia.
Qed.

Lemma slice_to_nonneg s X : 0 <= X -> slice_to s X = take (Z.to_nat X) s.
Proof.
  intros HX. unfold slice_to. destruct (Z.leb_spec 0 X); [done|lia].
Qed.

Lemma slice_to_slice_to s X Y :
  0 <= X <= Y -> slice_to (slice_to s Y) X = slice_to s X.
Proof.
  intros [HX HY]. rewrite !slice_to_nonneg by lia.
  rewrite take_take. f_equal. lia.
Qed.

Lemma width_passes_injective W X :
  width_passes W X = true <-> prefix_injective W X.
Proof.
  unfold width_passes, truncated_words, prefix_injective.
  rewrite Nat.eqb_eq, size_set_map_inj_on.
  split; intros Hinj w1 w2 H1 H2 Heq; apply Hinj; try done.
  - by rewrite !truncate_string_slice.
  - by rewrite !truncate_string_slice in Heq.
Qed.

Lemma width_fails_collision W X :
  width_passes W X = false -> prefix_collision W X.
Proof.
  unfold width_passes, truncated_words, prefix_collision.
  rewrite Nat.eqb_neq. intros Hne.
  destruct (size_set_map_collision _ _ Hne) as (w1 & w2 & H1 & H2 & Hd & Heq).
  exists w1, w2. by rewrite !truncate_string_slice in Heq.
Qed.

Lemma collision_not_injective W X :
  prefix_collision W X -> ~ prefix_injective W X.
Proof.
  intros (w1 & w2 & H1 & H2 & Hd & Heq) Hinj. apply Hd. by apply Hinj.
Qed.

(** What the scan over [range(m, m + len)] returns. *)
Lemma scan_widths_Some W len : forall m X,
  scan_widths W (seqZ m len) = Some X ->
  m <= X < m + len /\ width_passes W X = true /\
  forall Y, m <= Y < X -> width_passes W Y = false.
Proof.
  remember (Z.to_nat len) as n eqn:Hn. revert len Hn.
  induction n as [|n IH]; intros len Hn m X.
  - rewrite seqZ_nil by lia. discriminate.
  - rewrite seqZ_cons by lia. simpl.
    destruct (width_passes W m) eqn:Hm.
    + intros [= <-]. repeat split; [lia | lia | done | lia].
    + intros Hscan. apply IH in Hscan as (Hr & Hp & Hmin); [|lia].
      repeat split; [lia | lia | done |].
      intros Y HY. destruct (decide (Y = m)) as [->|Hne]; [done|].
      apply Hmin. lia.
Qed.

Lemma scan_widths_None W len : forall m,
  scan_widths W (seqZ m len) = None ->
  forall Y, m <= Y < m + len -> width_passes W Y = false.
Proof.
  remember (Z.to_nat len) as n eqn:Hn. revert len Hn.
  induction n as [|n IH]; intros len Hn m.
  - intros _ Y HY. lia.
  - rewrite seqZ_cons by lia. simpl.
    destruct (width_passes W m) eqn:Hm; [discriminate|].
    intros Hscan Y HY. destruct (decide (Y = m)) as [->|Hne]; [done|].
    apply (IH (Z.pred len)) with (m := Z.succ m); [lia | done | lia].
Qed.

Lemma max_word_length_ge W w : w ∈ W -> (length w <= max_word_length W)%nat.
Proof.
  intros Hw. unfold max_word_length. apply max_list_elem_of_le.
  apply list_elem_of_fmap_2. by apply elem_of_elements.
Qed.
End solver.

Example end_to_end_fixture :
  find_min_truncation_length fixture_words 80 = Some 4.
Proof. vm_compute. reflexivity. Qed.

(** C1. When [find_min_truncation_length W max_length] returns a width [X],
    the mapping [w -> w[:X]] is injective over [W], and [X] is minimal:
    no width [Y] with [1 <= Y < X] keeps the mapping injective. *)
Theorem find_min_truncation_length_sound_minimal
    (W : gset str) (max_length X : Z) :
  find_min_truncation_length W max_length = Some X ->
  prefix_injective W X /\
  forall Y, 1 <= Y < X -> ~ prefix_injective W Y.
Proof.
  unfold find_min_truncation_length.
  destruct (decide (W = ∅)) as [|Hne]; [discriminate|].
  intros Hscan. apply scan_widths_Some in Hscan as (Hr & Hp & Hmin).
  split.
  - by apply width_passes_injective.
  - intros Y HY. apply collision_not_injective, width_fails_collision.
    apply Hmin. lia.
Qed.

Lemma find_min_truncation_length_sound_minimal_witness :
  prefix_injective fixture_words 4 /\
  forall Y, 1 <= Y < 4 -> ~ prefix_injective fixture_words Y.
Proof.
  apply (find_min_truncation_length_sound_minimal fixture_words 80 4).
  vm_compute. reflexivity.
Defined.

(** C2. When [find_min_truncation_length W max_length] returns [None] on a
    non-empty [W], every candidate width [X] in
    [[1, min(max(len(w) for w in W), max_length)]] has a collision: two
    distinct words of [W] with the same length-[X] prefix. *)
Theorem find_min_truncation_length_None_collisions
    (W : gset str) (max_length : Z) :
  W <> ∅ ->
  find_min_truncation_length W max_length = None ->
  forall X, 1 <= X <= Z.min (Z.of_nat (max_word_length W)) max_length ->
            prefix_collision W X.
Proof.
  intros Hne. unfold find_min_truncation_length.
  destruct (decide (W = ∅)) as [|_]; [done|].
  intros Hscan X HX. apply width_fails_collision.
  apply (scan_widths_None _ _ _ Hscan). lia.
Qed.

Lemma find_min_truncation_length_None_collisions_witness :
  prefix_collision cat_words 3.
Proof.
  apply (find_min_truncation_length_None_collisions cat_words 3).
  - vm_compute. discriminate.
  - vm_compute. reflexivity.
  - vm_compute. split; discriminate.
Defined.

(** A collision at a width is a collision at every smaller width. *)
Lemma prefix_injective_mono (W : gset str) (X Y : Z) :
  0 <= X -> X <= Y -> prefix_injective W X -> prefix_injective W Y.
Proof.
  intros HX HXY Hinj w1 w2 H1 H2 Heq. apply Hinj; [done..|].
  rewrite <- (slice_to_slice_to w1 X Y), <- (slice_to_slice_to w2 X Y) by lia.
  by rewrite Heq.
Qed.

(** C3, as stated, fails: no word set has a width [X] at which prefixes are
    unique and a larger width [Y] at which they are not. *)
Lemma prefix_uniqueness_non_monotone_refuted :
  ~ exists (W : gset str) (X Y : Z),
      1 <= X /\ X < Y /\ Y <= Z.of_nat (max_word_length W) /\
      prefix_injective W X /\ ~ prefix_injective W Y.
Proof.
  intros (W & X & Y & HX & HXY & _ & Hinj & Hnot).
  apply Hnot. apply (prefix_injective_mono W X Y); [lia | lia | done].
Qed.

(** C3, amended. Prefix uniqueness is monotone in the width: if
    [w -> w[:X]] is injective over [W] and [X <= Y], then [w -> w[:Y]] is
    injective over [W] too, and the solver's own cardinality test passes at
    [Y] whenever it passes at [X]. *)
Theorem prefix_uniqueness_monotone (W : gset str) (X Y : Z) :
  0 <= X -> X <= Y ->
  (prefix_injective W X -> prefix_injective W Y) /\
  (width_passes W X = true -> width_passes W Y = true).
Proof.
  intros HX HXY. split.
  - by apply prefix_injective_mono.
  - rewrite !width_passes_injective. by apply prefix_injective_mono.
Qed.

Lemma prefix_uniqueness_monotone_witness :
  width_passes fixture_words 4 = true /\ width_passes fixture_words 9 = true.
Proof.
  split; [vm_compute; reflexivity|].
  apply (prefix_uniqueness_monotone fixture_words 4 9); [lia | lia |].
  vm_compute. reflexivity.
Defined.

(** The candidate equal to the length of the longest word passes as soon
    as one word is not empty. *)
Lemma find_min_truncation_length_total
    (W : gset str) (max_length : Z) (w0 : str) :
  w0 ∈ W -> w0 <> [] ->
  Z.of_nat (max_word_length W) <= max_length ->
  exists X, find_min_truncation_length W max_length = Some X /\
            1 <= X <= Z.of_nat (max_word_length W).
Proof.
  intros Hw0 Hne Hmax.
  assert (1 <= Z.of_nat (max_word_length W)) as Hpos.
  { pose proof (max_word_length_ge W w0 Hw0). destruct w0; [done|]. simpl in *. lia. }
  assert (width_passes W (Z.of_nat (max_word_length W)) = true) as Hpass.
  { apply width_passes_injective. intros w1 w2 H1 H2.
    rewrite !slice_to_nonneg by lia. rewrite Nat2Z.id.
    rewrite !take_ge by (by apply max_word_length_ge). done. }
  unfold find_min_truncation_length.
  destruct (decide (W = ∅)) as [->|_]; [by apply not_elem_of_empty in Hw0|].
  cbv zeta.
  destruct (scan_widths W _) as [X|] eqn:Hscan.
  - exists X. split; [done|].
    apply scan_widths_Some in Hscan as (Hr & _ & _). lia.
  - exfalso.
    pose proof (scan_widths_None _ _ _ Hscan (Z.of_nat (max_word_length W))) as Hf.
    rewrite Hf in Hpass; [done|lia].
Qed.

(** C10. Let [W] be a non-empty set of words; a word is a match of [\w+],
    so no word is the empty string.  If [max_length] is at least the length
    of the longest word, [find_min_truncation_length W max_length] is not
    [None]: it is a width [X] with [1 <= X <= max(len(w) for w in W)].  The
    candidate equal to the longest length keeps the words apart, so [None]
    comes only from an empty [W] or from a [max_length] below the longest
    length. *)
Theorem find_min_truncation_length_never_None_on_words
    (W : gset str) (max_length : Z) :
  W <> ∅ ->
  (forall w, w ∈ W -> w <> []) ->
  Z.of_nat (max_word_length W) <= max_length ->
  (exists X, find_min_truncation_length W max_length = Some X /\
             1 <= X <= Z.of_nat (max_word_length W)) /\
  find_min_truncation_length W max_length <> None /\
  prefix_injective W (Z.of_nat (max_word_length W)).
Proof.
  intros Hne Hwords Hmax.
  destruct (set_choose_L W Hne) as [w0 Hw0].
  destruct (find_min_truncation_length_total W max_length w0)
    as (X & Hfind & HX); [done | by apply Hwords | done |].
  split; [by exists X|]. split; [by rewrite Hfind|].
  intros w1 w2 H1 H2. rewrite !slice_to_nonneg by lia. rewrite Nat2Z.id.
  rewrite !take_ge by (by apply max_word_length_ge). done.
Qed.

Lemma find_min_truncation_length_never_None_on_words_witness :
  (exists X, find_min_truncation_length fixture_words 80 = Some X /\
             1 <= X <= Z.of_nat (max_word_length fixture_words)) /\
  find_min_truncation_length fixture_words 80 <> None /\
  prefix_injective fixture_words (Z.of_nat (max_word_length fixture_words)).
Proof.
  apply (find_min_truncation_length_never_None_on_words fixture_words 80).
  - vm_compute. discriminate.
  - intros w Hw ->. vm_compute in Hw. discriminate.
  - vm_compute. discriminate.
Defined.

(** The words must not be empty: the set that holds only the empty string,
    which [get_unique_words] never returns, has no candidate width. *)
Example find_min_truncation_length_empty_string :
  find_min_truncation_length {[ [] ]} 80 = None.
Proof. vm_compute. reflexivity. Qed.

(** * Properties of the word scanner and of truncate_content *)

Section word_scanner.
Implicit Types (c : ascii) (s w content : str) (ps : list piece).
Implicit Types (f g : str -> str).

Lemma scan_words_scanned content : scanned (scan_words content).
Proof.
  induction content as [|c rest IH]; simpl; [done|].
  destruct (is_word c) eqn:Hc; simpl; [|done].
  destruct (scan_words rest) as [|[w|d] ps] eqn:Hscan; simpl in *.
  - repeat split; [done | simpl; by rewrite Hc].
  - destruct IH as ([Hne Hall] & Hadj & Hps).
    repeat split; [done | simpl; by rewrite Hc | done | done].
  - repeat split; [done | simpl; by rewrite Hc | tauto | tauto].
Qed.

Lemma concat_piece_text_scan content :
  concat (piece_text id <$> scan_words content) = content.
Proof.
  induction content as [|c rest IH]; simpl; [done|].
  destruct (is_word c);
    [destruct (scan_words rest) as [|[w|d] ps]|]; simpl in *; by f_equal.
Qed.

(** Scanning a word run followed by text that does not start with a word
    character yields that run as one match. *)
Lemma scan_words_run w s :
  word_run w ->
  match scan_words s with Match _ :: _ => False | _ => True end ->
  scan_words (w ++ s) = Match w :: scan_words s.
Proof.
  intros [Hne Hall] Hs. induction w as [|c w IH]; [done|].
  simpl in *. apply andb_true_iff in Hall as [Hc Hall]. rewrite Hc.
  destruct w as [|c' w'].
  - simpl. destruct (scan_words s) as [|[?|?] ?]; done.
  - rewrite IH by done. done.
Qed.

Lemma scan_words_rendered ps :
  scanned ps -> scan_words (concat (piece_text id <$> ps)) = ps.
Proof.
  induction ps as [|[w|c] ps IH]; csimpl; [done|..].
  - intros (Hw & Hadj & Hps). rewrite scan_words_run, IH; try done.
    rewrite IH by done. done.
  - intros [Hc Hps]. rewrite Hc, IH by done. done.
Qed.

Lemma piece_text_map_matches f ps :
  piece_text id <$> map_matches f ps = piece_text f <$> ps.
Proof.
  unfold map_matches. rewrite <- list_fmap_compose.
  apply list_fmap_ext. by intros _ [w|c] _.
Qed.

Lemma map_matches_scanned f ps :
  (forall w, word_run w -> word_run (f w)) ->
  scanned ps -> scanned (map_matches f ps).
Proof.
  intros Hf. induction ps as [|[w|c] ps IH]; csimpl; [done|..].
  - intros (Hw & Hadj & Hps). repeat split; [by apply Hf.. | | by apply IH].
    destruct ps as [|[?|?] ?]; done.
  - intros [Hc Hps]. split; [done | by apply IH].
Qed.

(** Substituting word runs for word runs commutes with the scan. *)
Lemma scan_words_re_sub f content :
  (forall w, word_run w -> word_run (f w)) ->
  scan_words (re_sub_words f content) = map_matches f (scan_words content).
Proof.
  intros Hf. unfold re_sub_words. rewrite <- piece_text_map_matches.
  apply scan_words_rendered, map_matches_scanned, scan_words_scanned. done.
Qed.

Lemma matches_of_map_matches f ps :
  matches_of (map_matches f ps) = f <$> matches_of ps.
Proof.
  induction ps as [|[w|c] ps IH]; csimpl; [done| |done].
  unfold matches_of in *. csimpl. by rewrite IH.
Qed.

Lemma map_matches_compose f g ps :
  map_matches f (map_matches g ps) = map_matches (f ∘ g) ps.
Proof.
  unfold map_matches. rewrite <- list_fmap_compose.
  apply list_fmap_ext. by intros _ [w|c] _.
Qed.

Lemma map_matches_ext f g ps :
  (forall w, f w = g w) -> map_matches f ps = map_matches g ps.
Proof.
  intros Hfg. apply list_fmap_ext. intros _ [w|c] _; [|done]. by rewrite Hfg.
Qed.

Lemma non_word_chars_app s1 s2 :
  non_word_chars (s1 ++ s2) = non_word_chars s1 ++ non_word_chars s2.
Proof. apply List.filter_app. Qed.

Lemma non_word_chars_run w : forallb is_word w = true -> non_word_chars w = [].
Proof.
  induction w as [|c w IH]; csimpl; [done|].
  intros [Hc Hw]%andb_true_iff. rewrite Hc. csimpl. by apply IH.
Qed.


(** A word cut to a positive width is still a word run. *)
Lemma truncate_string_word_run w X :
  1 <= X -> word_run w -> word_run (truncate_string w X).
Proof.
  intros HX [Hne Hall]. rewrite truncate_string_slice, slice_to_nonneg by lia.
  split.
  - destruct w as [|c w]; [done|].
    destruct (Z.to_nat X) as [|n] eqn:Hn; [lia|]. done.
  - apply forallb_forall. intros c Hc.
    rewrite forallb_forall in Hall. apply Hall.
    apply list_elem_of_In in Hc. apply list_elem_of_In.
    apply elem_of_take in Hc as (i & Hi & _). by eapply list_elem_of_lookup_2.
Qed.


Lemma truncate_string_idemp w X :
  0 <= X -> truncate_string (truncate_string w X) X = truncate_string w X.
Proof.
  intros HX. rewrite !truncate_string_slice. apply slice_to_slice_to. lia.
Qed.
End word_scanner.

Lemma piece_text_compose (f g : str -> str) (ps : list piece) :
  piece_text f <$> map_matches g ps = piece_text (f ∘ g) <$> ps.
Proof.
  unfold map_matches. rewrite <- list_fmap_compose.
  apply list_fmap_ext. by intros _ [w|c] _.
Qed.

Lemma scan_words_truncate_content (content : str) (X : Z) :
  1 <= X ->
  scan_words (truncate_content content X) =
  map_matches (fun w => slice_to w X) (scan_words content).
Proof.
  intros HX. unfold truncate_content.
  rewrite scan_words_re_sub by (intros w; by apply truncate_string_word_run).
  apply map_matches_ext. intros w. apply truncate_string_slice.
Qed.

Example truncate_content_fixture :
  truncate_content (py "hello, wide_world!") 3 = py "hel, wid!".
Proof. vm_compute. reflexivity. Qed.

(** C7. Truncation is idempotent: for every content and every width
    [X >= 1], truncating the truncated content again at [X] changes
    nothing. *)
Theorem truncate_content_idempotent (content : str) (X : Z) :
  1 <= X ->
  truncate_content (truncate_content content X) X = truncate_content content X.
Proof.
  intros HX. unfold truncate_content at 1 3. unfold re_sub_words.
  rewrite scan_words_truncate_content by done.
  rewrite piece_text_compose. f_equal.
  apply list_fmap_ext. intros _ [w|c] _; [|done]. simpl.
  rewrite <- truncate_string_slice. apply truncate_string_idemp. lia.
Qed.

Lemma truncate_content_idempotent_witness :
  truncate_content (truncate_content (py "hello, wide_world!") 3) 3 =
  truncate_content (py "hello, wide_world!") 3.
Proof. apply (truncate_content_idempotent (py "hello, wide_world!") 3). lia. Defined.




(** * Properties of strip *)

Section strip_lemmas.
Implicit Types (c : ascii) (s ws : str) (p : ascii -> bool).

Lemma lstrip_with_split p s :
  exists ws, s = ws ++ lstrip_with p s /\ Forall (fun c => p c = true) ws.
Proof.
  induction s as [|c s (ws & Heq & Hall)]; [by exists []|].
  simpl. destruct (p c) eqn:Hc.
  - exists (c :: ws). split; [by rewrite Heq at 1|]. by apply Forall_cons.
  - by exists [].
Qed.

Lemma lstrip_with_idemp p s :
  lstrip_with p (lstrip_with p s) = lstrip_with p s.
Proof.
  induction s as [|c s IH]; [done|]. simpl.
  destruct (p c) eqn:Hc; [done|]. simpl. by rewrite Hc.
Qed.

Lemma rstrip_with_split p s :
  exists ws, s = rstrip_with p s ++ ws /\ Forall (fun c => p c = true) ws.
Proof.
  unfold rstrip_with.
  destruct (lstrip_with_split p (reverse s)) as (ws & Heq & Hall).
  exists (reverse ws). split; [|by apply Forall_reverse].
  rewrite <- reverse_app, <- Heq. by rewrite reverse_involutive.
Qed.

Lemma rstrip_with_idemp p s :
  rstrip_with p (rstrip_with p s) = rstrip_with p s.
Proof.
  unfold rstrip_with. by rewrite reverse_involutive, lstrip_with_idemp.
Qed.

Lemma lstrip_with_head (p : ascii -> bool) c s :
  p c = false -> lstrip_with p (c :: s) = c :: s.
Proof. intros H. simpl. by rewrite H. Qed.

Lemma lstrip_with_spaces p ws s :
  Forall (fun c => p c = true) ws ->
  lstrip_with p (ws ++ s) = lstrip_with p s.
Proof.
  induction 1 as [|c ws Hc _ IH]; [done|]. simpl. by rewrite Hc.
Qed.

Lemma rstrip_with_spaces p s ws :
  Forall (fun c => p c = true) ws ->
  rstrip_with p (s ++ ws) = rstrip_with p s.
Proof.
  intros Hws. unfold rstrip_with. rewrite reverse_app.
  by rewrite lstrip_with_spaces by (by apply Forall_reverse).
Qed.

Lemma rstrip_with_last p s c :
  p c = false -> rstrip_with p (s ++ [c]) = s ++ [c].
Proof.
  intros Hc. unfold rstrip_with. rewrite reverse_app.
  change (reverse [c] ++ reverse s) with (c :: reverse s).
  rewrite lstrip_with_head by done.
  by rewrite reverse_cons, reverse_involutive.
Qed.

End strip_lemmas.

(** * Properties of parse_override_max_length *)

Section override_parsing.
Implicit Types (override pattern text s : str) (width : Z).
Implicit Types (overrides : list str) (entries : list (str * Z)).

Lemma split_once_no_sep sep s : sep ∉ s -> split_once sep s = [s].
Proof.
  induction s as [|c s IH]; simpl; [done|].
  intros Hnot. apply not_elem_of_cons in Hnot as [Hne Hnot].
  destruct (Ascii.eqb_spec c sep) as [->|_]; [done|].
  by rewrite IH.
Qed.

Lemma split_once_at_first sep s1 s2 :
  sep ∉ s1 -> split_once sep (s1 ++ sep :: s2) = [s1; s2].
Proof.
  induction s1 as [|c s1 IH]; simpl.
  - intros _. by rewrite Ascii.eqb_refl.
  - intros Hnot. apply not_elem_of_cons in Hnot as [Hne Hnot].
    destruct (Ascii.eqb_spec c sep) as [->|_]; [done|].
    by rewrite IH.
Qed.

(** Every string either has no separator or splits at its first one. *)
Lemma first_sep_cases sep s :
  sep ∉ s \/ exists s1 s2, s = s1 ++ sep :: s2 /\ sep ∉ s1.
Proof.
  induction s as [|c s IH].
  - left. apply not_elem_of_nil.
  - destruct (decide (c = sep)) as [->|Hne].
    + right. exists [], s. split; [done | apply not_elem_of_nil].
    + destruct IH as [Hnot|(s1 & s2 & -> & Hnot)].
      * left. by apply not_elem_of_cons.
      * right. exists (c :: s1), s2. split; [done | by apply not_elem_of_cons].
Qed.

Lemma first_sep_unique sep s1 s2 t1 t2 :
  sep ∉ s1 -> sep ∉ t1 -> s1 ++ sep :: s2 = t1 ++ sep :: t2 ->
  s1 = t1 /\ s2 = t2.
Proof.
  intros Hs Ht Heq.
  pose proof (split_once_at_first sep s1 s2 Hs) as H1.
  rewrite Heq, (split_once_at_first sep t1 t2 Ht) in H1.
  by injection H1 as <- <-.
Qed.

(** The digit table and the white space of [int] agree with the
    character classes of the parser. *)
Lemma decimal_digit_spec (c : ascii) :
  decimal_digit c = if is_digit c then Some (digit_value c) else None.
Proof. destruct c as [[] [] [] [] [] [] [] []]; vm_compute; reflexivity. Qed.

Lemma int_white_space_spec (c : ascii) :
  c ∈ int_white_space <-> is_int_space c = true.
Proof.
  rewrite <- (bool_decide_spec (c ∈ int_white_space)).
  assert (bool_decide (c ∈ int_white_space) = is_int_space c) as ->.
  { destruct c as [[] [] [] [] [] [] [] []]; vm_compute; reflexivity. }
  apply Is_true_true.
Qed.

Lemma decimal_digit_Some (c : ascii) (u : Z) :
  decimal_digit c = Some u ->
  is_digit c = true /\ digit_value c = u /\ Ascii.eqb c "_" = false /\
  Ascii.eqb c "+" = false /\ Ascii.eqb c "-" = false /\
  is_int_space c = false.
Proof.
  rewrite decimal_digit_spec.
  destruct c as [[] [] [] [] [] [] [] []]; vm_compute; intros [= <-]; done.
Qed.

Lemma numeral_head s (v k : Z) :
  numeral s v k -> exists d rest u, s = d :: rest /\ decimal_digit d = Some u.
Proof.
  induction 1 as [d u Hd|s v k d u _ (d0 & rest & u0 & -> & Hd0) _
                 |s v k d u _ (d0 & rest & u0 & -> & Hd0) _].
  - by exists d, [], u.
  - by exists d0, (rest ++ [d]), u0.
  - by exists d0, (rest ++ ["_"; d]%char), u0.
Qed.

Lemma numeral_last s (v k : Z) :
  numeral s v k -> exists rest d u, s = rest ++ [d] /\ decimal_digit d = Some u.
Proof.
  destruct 1 as [d u Hd|s v k d u _ Hd|s v k d u _ Hd].
  - by exists [], d, u.
  - by exists s, d, u.
  - exists (s ++ ["_"%char]), d, u. by rewrite <- app_assoc.
Qed.

(** [int_digits] reads a numeral to its value and its number of digits. *)
Lemma int_digits_numeral pre (v k : Z) :
  numeral pre v k ->
  forall s, int_digits (pre ++ s) false 0 0 = int_digits s true v k.
Proof.
  induction 1 as [d u Hd|pre v k d u _ IH Hd|pre v k d u _ IH Hd]; intros s.
  - apply decimal_digit_Some in Hd as (Hdig & <- & Hund & _).
    simpl. by rewrite Hund, Hdig.
  - apply decimal_digit_Some in Hd as (Hdig & <- & Hund & _).
    rewrite <- app_assoc, IH. simpl. by rewrite Hund, Hdig.
  - apply decimal_digit_Some in Hd as (Hdig & <- & Hund & _).
    rewrite <- app_assoc, IH. simpl. by rewrite Hund, Hdig.
Qed.

(** Conversely, what [int_digits] accepts is a numeral.  [pre] is the text
    read so far: a numeral, or nothing, or a numeral and an underscore. *)
Lemma int_digits_accepts s : forall pre (b : bool) (v k n : Z),
  (b = true /\ numeral pre v k) \/
  (b = false /\ pre = [] /\ v = 0 /\ k = 0) \/
  (b = false /\ exists p, pre = p ++ ["_"%char] /\ numeral p v k) ->
  int_digits s b v k = Some n ->
  exists k', numeral (pre ++ s) n k' /\ k' <= 4300.
Proof.
  induction s as [|c s IH]; intros pre b v k n Hstate; simpl.
  - destruct Hstate as [[-> Hnum]|[[-> _]|[-> _]]]; [|done..].
    simpl. destruct (Z.leb_spec k int_max_str_digits) as [Hk|]; [|done].
    intros [= <-]. exists k. rewrite app_nil_r. done.
  - destruct (Ascii.eqb_spec c "_") as [->|Hund].
    + destruct Hstate as [[-> Hnum]|[[-> _]|[-> _]]]; [|done..].
      intros Hrun. replace (pre ++ "_"%char :: s)
        with ((pre ++ ["_"%char]) ++ s) by (by rewrite <- app_assoc).
      eapply IH; [|exact Hrun]. right. right. split; [done|]. by exists pre.
    + pose proof (decimal_digit_spec c) as Hspec.
      destruct (is_digit c) eqn:Hdig; [|done].
      intros Hrun. replace (pre ++ c :: s)
        with ((pre ++ [c]) ++ s) by (by rewrite <- app_assoc).
      eapply IH; [|exact Hrun]. left. split; [done|].
      destruct Hstate as [[_ Hnum]|[(_ & -> & -> & ->)|(_ & p & -> & Hnum)]].
      * by apply numeral_more.
      * simpl. replace (10 * 0 + digit_value c) with (digit_value c) by lia.
        by apply numeral_digit.
      * rewrite <- app_assoc. by apply numeral_underscore.
Qed.

Lemma int_digits_iff s (n : Z) :
  int_digits s false 0 0 = Some n <->
  exists k, numeral s n k /\ k <= 4300.
Proof.
  split.
  - intros Hrun. apply (int_digits_accepts s [] false 0 0 n); [|done].
    right. by left.
  - intros (k & Hnum & Hk).
    rewrite <- (app_nil_r s), (int_digits_numeral s n k Hnum). simpl.
    destruct (Z.leb_spec k int_max_str_digits) as [|Hgt]; [done|].
    unfold int_max_str_digits in Hgt. lia.
Qed.

Lemma strip_with_core before core after rest (d c : ascii) tail :
  Forall (fun c => is_int_space c = true) before ->
  Forall (fun c => is_int_space c = true) after ->
  core = rest ++ [d] -> is_int_space d = false ->
  core = c :: tail -> is_int_space c = false ->
  strip_with is_int_space (before ++ core ++ after) = core.
Proof.
  intros Hb Ha Hlast Hd Hhead Hc. unfold strip_with.
  rewrite (app_assoc before core after), rstrip_with_spaces by done.
  rewrite Hlast at 1. rewrite (app_assoc before rest [d]).
  rewrite rstrip_with_last by done.
  rewrite <- app_assoc, <- Hlast, lstrip_with_spaces by done.
  rewrite Hhead. by apply lstrip_with_head.
Qed.

(** The parser [py_int] accepts exactly the texts that write an integer,
    and returns the integer written. *)
Lemma py_int_integer_text text (n : Z) :
  py_int text = Ok n <-> integer_text text n.
Proof.
  split.
  - unfold py_int, strip_with.
    destruct (rstrip_with_split is_int_space text) as (after & Htext & Ha).
    destruct (lstrip_with_split is_int_space (rstrip_with is_int_space text))
      as (before & Hr & Hb).
    set (core := lstrip_with is_int_space (rstrip_with is_int_space text))
      in *.
    assert (forall ws, Forall (fun c => is_int_space c = true) ws ->
                       Forall (fun c => c ∈ int_white_space) ws) as Hws.
    { intros ws Hall. eapply Forall_impl; [exact Hall|].
      intros c. apply int_white_space_spec. }
    destruct (int_signed core) as [m|] eqn:Hsigned; [|done].
    intros [= ->]. unfold int_signed in Hsigned.
    destruct core as [|c rest] eqn:Hcore; [done|].
    destruct (Ascii.eqb_spec c "+") as [->|Hplus].
    { apply int_digits_iff in Hsigned as (k & Hnum & Hk).
      exists before, ["+"%char], rest, after, n, k.
      split; [by rewrite Htext, Hr, <- !app_assoc|].
      repeat (split; [by auto|]). left. by split; [right|]. }
    destruct (Ascii.eqb_spec c "-") as [->|Hminus].
    { destruct (int_digits rest false 0 0) as [v|] eqn:Hrest; [|done].
      injection Hsigned as <-.
      apply int_digits_iff in Hrest as (k & Hnum & Hk).
      exists before, ["-"%char], rest, after, v, k.
      split; [by rewrite Htext, Hr, <- !app_assoc|].
      repeat (split; [by auto|]). by right. }
    apply int_digits_iff in Hsigned as (k & Hnum & Hk).
    exists before, [], (c :: rest), after, n, k.
    split; [by rewrite Htext, Hr, <- !app_assoc|].
    repeat (split; [by auto|]). left. by split; [left|].
  - intros (before & sign & body & after & v & k & -> & Hb & Ha & Hnum & Hk
            & Hsign).
    assert (forall ws, Forall (fun c => c ∈ int_white_space) ws ->
                       Forall (fun c => is_int_space c = true) ws) as Hws.
    { intros ws Hall. eapply Forall_impl; [exact Hall|].
      intros c. apply int_white_space_spec. }
    destruct (numeral_last _ _ _ Hnum) as (rest & d & u & Hbody & Hd).
    destruct (numeral_head _ _ _ Hnum) as (d0 & tail & u0 & Hbody0 & Hd0).
    apply decimal_digit_Some in Hd as (_ & _ & _ & _ & _ & Hdspace).
    apply decimal_digit_Some in Hd0 as (_ & _ & _ & Hd0plus & Hd0minus
                                        & Hd0space).
    assert (int_digits body false 0 0 = Some v) as Hdigits.
    { apply int_digits_iff. by exists k. }
    unfold py_int. rewrite (app_assoc sign body after).
    destruct Hsign as [[[->| ->] ->]|[-> ->]].
    + rewrite (strip_with_core before ([] ++ body) after rest d d0 tail);
        [|by auto..].
      simpl. rewrite Hbody0 in *. unfold int_signed.
      by rewrite Hd0plus, Hd0minus, Hdigits.
    + rewrite (strip_with_core before (["+"%char] ++ body) after
                 ("+"%char :: rest) d "+"%char body);
        [|by auto|by auto|by rewrite Hbody|done|done|done].
      simpl. by rewrite Hdigits.
    + rewrite (strip_with_core before (["-"%char] ++ body) after
                 ("-"%char :: rest) d "-"%char body);
        [|by auto|by auto|by rewrite Hbody|done|done|done].
      simpl. by rewrite Hdigits.
Qed.

Lemma integer_text_unique text (n m : Z) :
  integer_text text n -> integer_text text m -> n = m.
Proof. intros Hn%py_int_integer_text Hm%py_int_integer_text. congruence. Qed.

Lemma py_int_cases text :
  py_int text = Raise ValueError \/ exists width, py_int text = Ok width.
Proof.
  unfold py_int. destruct (int_signed _); [right; eauto | by left].
Qed.

Lemma parse_override_well_formed override pattern width :
  parse_override override = Ok (pattern, width) <->
  well_formed_override override pattern width.
Proof.
  unfold parse_override, well_formed_override. split.
  - destruct (first_sep_cases ":" override) as [Hnot|(p & t & -> & Hnot)].
    + by rewrite split_once_no_sep.
    + rewrite split_once_at_first by done. simpl.
      destruct (py_int t) as [w|e] eqn:Hint; simpl; [|done].
      destruct (Z.leb_spec w 0) as [|Hpos]; [done|].
      intros [= <- <-]. exists t. by rewrite <- py_int_integer_text.
  - intros (t & -> & Hnot & Hint%py_int_integer_text & Hpos).
    rewrite split_once_at_first by done. simpl. rewrite Hint. simpl.
    destruct (Z.leb_spec width 0); [lia | done].
Qed.

(** The [try] block raises nothing but [ValueError]. *)
Lemma parse_override_raises override e :
  parse_override override = Raise e -> e = ValueError.
Proof.
  unfold parse_override.
  destruct (split_once ":" override) as [|a [|b [|]]]; simpl; try by intros [=].
  unfold py_int. destruct (int_signed _) as [w|]; simpl; [|by intros [=]].
  destruct (w <=? 0); by intros [=].
Qed.

Lemma not_well_formed_malformed override :
  (forall pattern width, ~ well_formed_override override pattern width) <->
  malformed_override override.
Proof.
  unfold malformed_override. split.
  - intros Hnot.
    destruct (first_sep_cases ":" override) as [?|(p & t & -> & Hp)]; [by left|].
    right. exists p, t. split; [done|]. split; [done|].
    destruct (py_int_cases t) as [Hraise|[w Hw]].
    { left. intros n Hn%py_int_integer_text. congruence. }
    apply py_int_integer_text in Hw.
    right. exists w. split; [done|].
    destruct (Z.le_gt_cases w 0) as [|Hpos]; [done|].
    destruct (Hnot p w). by exists t.
  - intros [Hnone|(p & t & -> & Hp & Hbad)] pattern width (t' & Heq & Hp' & Hint & Hpos).
    + apply Hnone. rewrite Heq. apply elem_of_app. right. left.
    + apply first_sep_unique in Heq as [-> ->]; [|done..].
      destruct Hbad as [Hbad|(w & Hw & Hle)]; [by destruct (Hbad width)|].
      pose proof (integer_text_unique _ _ _ Hint Hw). lia.
Qed.

Lemma parse_override_loop_spec overrides : forall parsed log,
  exists entries messages,
    parse_override_loop overrides parsed log =
      Ok (parsed ++ entries, log ++ messages) /\
    kept_entries overrides entries /\
    (length entries + length messages = length overrides)%nat /\
    (forall override,
       override ∈ overrides -> malformed_override override ->
       invalid_override_message override ∈ messages).
Proof.
  induction overrides as [|o overrides IH]; intros parsed log; simpl.
  - exists [], []. rewrite !app_nil_r. repeat split; [constructor|].
    intros override Hin. by apply elem_of_nil in Hin.
  - destruct (parse_override o) as [[p w]|e] eqn:Hparse.
    + destruct (IH (parsed ++ [(p, w)]) log) as (es & ms & Hrun & Hkept & Hlen & Hmsg).
      exists ((p, w) :: es), ms. rewrite Hrun, <- app_assoc. simpl.
      apply parse_override_well_formed in Hparse.
      repeat split; [by constructor | lia |].
      intros override [->|Hin]%elem_of_cons Hbad; [|by apply Hmsg].
      destruct (proj2 (not_well_formed_malformed _) Hbad p w). done.
    + pose proof (parse_override_raises _ _ Hparse) as ->.
      destruct (IH parsed (log ++ [invalid_override_message o]))
        as (es & ms & Hrun & Hkept & Hlen & Hmsg).
      exists es, (invalid_override_message o :: ms).
      rewrite Hrun, <- app_assoc. simpl.
      repeat split; [|lia|].
      * apply kept_drop; [|done]. intros p w Hwf.
        apply parse_override_well_formed in Hwf. congruence.
      * intros override [->|Hin]%elem_of_cons Hbad; [left|right; by apply Hmsg].
Qed.
End override_parsing.

Example parse_override_max_length_fixture :
  parse_override_max_length
    [py "*.py:50"; py "bad"; py "x:0"; py "*.md: 7 "; py "y:ten"] =
  Ok ([(py "*.py", 50); (py "*.md", 7)],
      invalid_override_message <$> [py "bad"; py "x:0"; py "y:ten"]).
Proof. vm_compute. reflexivity. Qed.

(** C9. [parse_override_max_length] never fails as a whole and keeps
    exactly the well-formed entries: it returns, in input order, the
    [(pattern, width)] pairs of the entries [PATTERN:INTEGER] whose width is
    a positive integer; an entry is dropped exactly when it has no colon,
    or a width text that is not an integer, or a width [<= 0], and each
    dropped entry leaves its diagnostic in the log. *)
Theorem parse_override_max_length_keeps_well_formed (overrides : list str) :
  exists entries log,
    parse_override_max_length overrides = Ok (entries, log) /\
    kept_entries overrides entries /\
    (length entries + length log = length overrides)%nat /\
    (forall override,
       (forall pattern width, ~ well_formed_override override pattern width)
       <-> malformed_override override) /\
    (forall override,
       override ∈ overrides -> malformed_override override ->
       invalid_override_message override ∈ log).
Proof.
  destruct (parse_override_loop_spec overrides [] [])
    as (es & ms & Hrun & Hkept & Hlen & Hmsg).
  exists es, ms. unfold parse_override_max_length.
  repeat split; try done; by apply not_well_formed_malformed.
Qed.

(** * Properties of is_excluded *)

Section exclusion.
Implicit Types (c : ascii) (s path pat : str) (r : regex).

Lemma glob_items_bare_name pat :
  bare_name pat -> glob_items pat None = RChar <$> pat.
Proof.
  induction 1 as [|c pat (Hstar & Hany & Hset) _ IH]; [done|].
  simpl. apply Ascii.eqb_neq in Hstar, Hany, Hset.
  rewrite Hstar, Hany, Hset. by rewrite IH.
Qed.

Lemma compress_stars_chars pat :
  compress_stars (RChar <$> pat) = RChar <$> pat.
Proof. induction pat as [|c pat IH]; [done|]. csimpl. by rewrite IH. Qed.

Lemma fnmatch_translate_bare_name pat :
  bare_name pat -> fnmatch_translate pat = (RChar <$> pat) ++ [REnd].
Proof.
  intros H. unfold fnmatch_translate.
  rewrite glob_items_bare_name by done. by rewrite compress_stars_chars.
Qed.

Lemma re_match_here_chars pat s :
  re_match_here ((RChar <$> pat) ++ [REnd]) s = true <-> s = pat.
Proof.
  revert s. induction pat as [|c pat IH]; intros s.
  - simpl. destruct s; split; done.
  - csimpl. destruct s as [|d s]; [split; done|].
    rewrite andb_true_iff, Ascii.eqb_eq, IH. split.
    + by intros [-> ->].
    + intros [= -> ->]. done.
Qed.

Lemma re_search_suffix pat s :
  re_search ((RChar <$> pat) ++ [REnd]) s = true <-> pat `suffix_of` s.
Proof.
  induction s as [|d s IH].
  - simpl. rewrite orb_false_r, re_match_here_chars. split.
    + intros <-. done.
    + intros [k Hk]. symmetry in Hk. by apply app_eq_nil in Hk as [_ ->].
  - cbn [re_search]. rewrite orb_true_iff, IH, re_match_here_chars. split.
    + intros [<- | ?]; [done | by apply suffix_cons_r].
    + intros [[|e k] Hk]; simplify_eq/=; [by left | right; by exists k].
Qed.

End exclusion.

Lemma is_excluded_existsb (path : str) (patterns : list regex) :
  is_excluded path patterns = existsb (fun r => re_search r path) patterns.
Proof.
  induction patterns as [|r patterns IH]; [done|].
  simpl. rewrite IH. by destruct (re_search r path).
Qed.

(** C4. With the pattern list [["build"]], [is_excluded] is not a search
    for the name anywhere in the path: each compiled pattern ends with the
    end-of-string anchor, so the paths /project/build/file.py,
    /a/build/b/c.txt and /project/buildtools/file.py are all kept, while
    /project/build, which ends with the name, is excluded. *)
Theorem is_excluded_build_is_suffix_match :
  let exclusion_patterns := compile_exclusion_patterns [py "build"] in
  is_excluded (py "/project/build/file.py") exclusion_patterns = false /\
  is_excluded (py "/a/build/b/c.txt") exclusion_patterns = false /\
  is_excluded (py "/project/buildtools/file.py") exclusion_patterns = false /\
  is_excluded (py "/project/build") exclusion_patterns = true.
Proof. vm_compute. repeat split. Qed.

(** * Properties of match_override and of process_single_file *)

Section override_resolution.
Implicit Types (c : ascii) (p name directory file_path : str).
Implicit Types (overrides : list (str * Z)).

Lemma basename_foldl_no_slash name : forall acc,
  "/"%char ∉ name ->
  foldl (fun name c => if Ascii.eqb c "/" then [] else name ++ [c]) acc name
  = acc ++ name.
Proof.
  induction name as [|c name IH]; intros acc Hno; simpl.
  - by rewrite app_nil_r.
  - apply not_elem_of_cons in Hno as [Hc Hno].
    assert (Ascii.eqb c "/" = false) as -> by (apply Ascii.eqb_neq; congruence).
    rewrite IH by done. by rewrite <- app_assoc.
Qed.

Lemma basename_no_slash name : "/"%char ∉ name -> basename name = name.
Proof. intros H. unfold basename. by rewrite basename_foldl_no_slash. Qed.

Lemma basename_join directory name :
  "/"%char ∉ name -> basename (directory ++ "/"%char :: name) = name.
Proof.
  intros H. unfold basename. rewrite foldl_app. simpl.
  by rewrite basename_foldl_no_slash.
Qed.

Lemma basename_foldl_slash_free p : forall acc,
  "/"%char ∉ acc ->
  "/"%char ∉
    foldl (fun name c => if Ascii.eqb c "/" then [] else name ++ [c]) acc p.
Proof.
  induction p as [|c p IH]; intros acc Hacc; simpl; [done|].
  apply IH. destruct (Ascii.eqb_spec c "/") as [->|Hc].
  - apply not_elem_of_nil.
  - rewrite elem_of_app, list_elem_of_singleton. intros [?|?]; congruence.
Qed.

Lemma basename_slash_free p : "/"%char ∉ basename p.
Proof. apply basename_foldl_slash_free, not_elem_of_nil. Qed.

Lemma match_override_basename file_path p overrides :
  basename p = basename file_path ->
  match_override p overrides = match_override file_path overrides.
Proof.
  intros Hb. induction overrides as [|[pattern width] overrides IH]; [done|].
  simpl. by rewrite Hb, IH.
Qed.

Lemma match_override_Some file_path overrides width :
  match_override file_path overrides = Some width <->
  exists before pattern after,
    overrides = before ++ (pattern, width) :: after /\
    fnmatch (basename file_path) pattern = true /\
    Forall (fun o => fnmatch (basename file_path) o.1 = false) before.
Proof.
  induction overrides as [|[pattern w] overrides IH]; simpl.
  - split; [done|]. intros (before & ? & ? & Heq & _). by destruct before.
  - destruct (fnmatch (basename file_path) pattern) eqn:Hm.
    + split.
      * intros [= ->]. by exists [], pattern, overrides.
      * intros ([|[p' w'] before] & pat & after & Heq & Hpat & Hbefore).
        -- by simplify_eq/=.
        -- simplify_eq/=. apply Forall_cons in Hbefore as [Hno _].
           simpl in Hno. congruence.
    + rewrite IH. split.
      * intros (before & pat & after & -> & Hpat & Hbefore).
        exists ((pattern, w) :: before), pat, after.
        split; [done|]. split; [done|]. by apply Forall_cons.
      * intros ([|[p' w'] before] & pat & after & Heq & Hpat & Hbefore).
        -- simplify_eq/=. congruence.
        -- simplify_eq/=. apply Forall_cons in Hbefore as [_ Hbefore].
           by exists before, pat, after.
Qed.

Lemma match_override_None file_path overrides :
  match_override file_path overrides = None <->
  Forall (fun o => fnmatch (basename file_path) o.1 = false) overrides.
Proof.
  induction overrides as [|[pattern w] overrides IH]; simpl.
  - split; [by constructor | done].
  - rewrite Forall_cons. simpl.
    destruct (fnmatch (basename file_path) pattern).
    + split; [done | by intros [? _]].
    + rewrite IH. split; [by split | by intros [_ ?]].
Qed.

End override_resolution.

Example process_single_file_fixture :
  process_single_file fixture_fs (py "/src/main.py") (py "utf-8") false true
                      None [(py "*.md", 9); (py "*.py", 3); (py "main.*", 5)]
  = Ok [py "## src/main.py"; py "```python"; py "alp sou"; py "```"; []].
Proof. vm_compute. reflexivity. Qed.

(** C5. [match_override] returns the width of the first entry whose
    pattern matches the base name of the file, and [None] when no entry
    does; only the base name takes part, so two paths with the same base
    name resolve alike, whatever their directories.  In
    [process_single_file] with truncation requested, a matching override
    decides the width whatever the global width is, [None] included, and a
    file that matches no override is truncated at the global width, or
    left as it is when the global width is [None]. *)
Theorem override_resolution_first_match_on_basename
    (fs : file_system) (file_path default_encoding content : str)
    (minify_python : bool) (truncation_length : option Z)
    (overrides : list (str * Z)) :
  read_text fs file_path default_encoding = Some content ->
  strip content <> [] ->
  let extension := lower (splitext_ext file_path) in
  let language :=
    default (py "plaintext") (dict_get extension language_identifier) in
  let source :=
    if minify_python && bool_decide (extension = py ".py")
    then minify_python_code content else content in
  let rendered body :=
    relative_path ← relative_path_of fs file_path;
    Ok (section_lines relative_path language body) in
  (forall width,
     match_override file_path overrides = Some width <->
     exists before pattern after,
       overrides = before ++ (pattern, width) :: after /\
       fnmatch (basename file_path) pattern = true /\
       Forall (fun o => fnmatch (basename file_path) o.1 = false) before) /\
  (match_override file_path overrides = None <->
   Forall (fun o => fnmatch (basename file_path) o.1 = false) overrides) /\
  (forall other,
     basename other = basename file_path ->
     match_override other overrides = match_override file_path overrides) /\
  (forall directory,
     match_override (directory ++ "/"%char :: basename file_path) overrides =
     match_override file_path overrides) /\
  (forall width,
     match_override file_path overrides = Some width ->
     process_single_file fs file_path default_encoding minify_python true
                         truncation_length overrides
     = rendered (truncate_content source width)) /\
  (match_override file_path overrides = None ->
   process_single_file fs file_path default_encoding minify_python true
                       truncation_length overrides
   = rendered (match truncation_length with
               | Some X => truncate_content source X
               | None => source
               end)).
Proof.
  intros Hread Hfull extension language source rendered.
  split; [intros width; apply match_override_Some|].
  split; [apply match_override_None|].
  split; [intros other; apply match_override_basename|].
  split.
  { intros directory. apply match_override_basename, basename_join,
      basename_slash_free. }
  split.
  - intros width Hm. unfold process_single_file. rewrite Hread.
    destruct (decide (strip content = [])); [done|].
    unfold apply_truncation. by rewrite Hm.
  - intros Hm. unfold process_single_file. rewrite Hread.
    destruct (decide (strip content = [])); [done|].
    unfold apply_truncation. by rewrite Hm.
Qed.

Lemma override_resolution_first_match_on_basename_witness :
  process_single_file fixture_fs (py "/src/main.py") (py "utf-8") false true
                      None [(py "*.md", 9); (py "*.py", 3); (py "main.*", 5)]
  = Ok (section_lines (py "src/main.py") (py "python")
                      (truncate_content (py "alphabet soup") 3)).
Proof.
  apply (override_resolution_first_match_on_basename
           fixture_fs (py "/src/main.py") (py "utf-8") (py "alphabet soup")
           false None [(py "*.md", 9); (py "*.py", 3); (py "main.*", 5)]).
  - reflexivity.
  - vm_compute. discriminate.
  - vm_compute. reflexivity.
Defined.

(** * Properties of copy_to_clipboard *)

Section clipboard.
Implicit Types (c : ascii) (text chunk s : str) (chunks : list str).
Implicit Types (m : Z) (M n k i idx : nat).

(** The chunk that starts at [k * M]. *)
Lemma slice_chunk text m k :
  0 < m ->
  slice text ((Z.of_nat k + 0) * m) ((Z.of_nat k + 0) * m + m)
  = take (Z.to_nat m) (drop (k * Z.to_nat m) text).
Proof.
  intros Hm. unfold slice. f_equal; [f_equal; lia|]. f_equal. nia.
Qed.

Lemma text_chunks_pos text m :
  0 < m ->
  text_chunks text m =
  Ok ((fun k => take (Z.to_nat m) (drop (k * Z.to_nat m) text)) <$>
      seq 0 (Z.to_nat ((Z.of_nat (length text) + m - 1) / m))).
Proof.
  intros Hm. unfold text_chunks, range_from_zero.
  destruct (Z.eqb_spec m 0) as [|_]; [lia|].
  destruct (Z.ltb_spec m 0) as [|_]; [lia|].
  csimpl. f_equal. unfold seqZ. rewrite <- !list_fmap_compose.
  apply list_fmap_ext. intros _ k _. simpl. by apply slice_chunk.
Qed.

Lemma concat_chunks text M : forall n k,
  concat ((fun k => take M (drop (k * M) text)) <$> seq k n)
  = take (n * M) (drop (k * M) text).
Proof.
  induction n as [|n IH]; intros k; [done|].
  csimpl. rewrite IH.
  replace (S k * M)%nat with (k * M + M)%nat by lia.
  rewrite <- drop_drop. by rewrite take_take_drop.
Qed.

Lemma chunk_count_covers text m :
  0 < m ->
  (length text <=
   Z.to_nat ((Z.of_nat (length text) + m - 1) / m) * Z.to_nat m)%nat.
Proof.
  intros Hm.
  pose proof (Z.mul_succ_div_gt (Z.of_nat (length text) + m - 1) m Hm).
  assert (0 <= (Z.of_nat (length text) + m - 1) / m)
    by (apply Z.div_pos; lia).
  nia.
Qed.

Lemma text_chunks_concat text m chunks :
  0 < m -> text_chunks text m = Ok chunks -> concat chunks = text.
Proof.
  intros Hm. rewrite text_chunks_pos by done. intros [= <-].
  rewrite concat_chunks. simpl. rewrite drop_0.
  apply take_ge. by apply chunk_count_covers.
Qed.

Lemma text_chunks_bounded text m chunks :
  0 < m -> text_chunks text m = Ok chunks ->
  Forall (fun chunk => Z.of_nat (length chunk) <= m) chunks.
Proof.
  intros Hm. rewrite text_chunks_pos by done. intros [= <-].
  apply Forall_fmap, Forall_forall. intros k _. simpl.
  rewrite length_take. lia.
Qed.

(** The sections that a run without failure delivers. *)
Lemma send_sections_all (run : str -> option str) n chunks :
  (forall payload, run payload = None) ->
  forall idx sent log,
  send_sections run n idx chunks sent log =
  (sent ++ imap (fun i chunk => section_comment (idx + i) n ++ chunk) chunks,
   log).
Proof.
  intros Hrun. induction chunks as [|chunk chunks IH]; intros idx sent log.
  - simpl. by rewrite app_nil_r.
  - simpl. rewrite Hrun, IH. rewrite <- app_assoc. simpl.
    rewrite Nat.add_0_r. do 3 f_equal.
    apply imap_ext. intros i x _. simpl.
    by replace (idx + S i)%nat with (S (idx + i)) by lia.
Qed.

Lemma pretty_N_go_digits (x : N) : forall t : string,
  Forall (fun c => is_digit c = true) (py t) ->
  Forall (fun c => is_digit c = true) (py (pretty_N_go x t)).
Proof.
  induction (N.lt_wf_0 x) as [x _ IH]; intros t Ht.
  destruct (decide (x = 0%N)) as [->|Hx]; [by rewrite pretty_N_go_0|].
  rewrite pretty_N_go_step by lia. apply IH.
  - apply N.div_lt; lia.
  - unfold py. simpl. apply Forall_cons. split; [|done].
    unfold pretty_N_char. by repeat case_match.
Qed.

Lemma str_of_nat_digits n :
  Forall (fun c => is_digit c = true) (str_of_nat n).
Proof.
  unfold str_of_nat, pretty, pretty_nat, pretty, pretty_N.
  case_decide.
  - by repeat constructor.
  - apply pretty_N_go_digits. constructor.
Qed.

Lemma str_of_nat_no_newline n : newline ∉ str_of_nat n.
Proof.
  intros Hin. pose proof (str_of_nat_digits n) as Hd.
  rewrite Forall_forall in Hd. by apply Hd in Hin.
Qed.

Lemma drop_first_line_skip s1 s2 :
  newline ∉ s1 -> drop_first_line (s1 ++ s2) = drop_first_line s2.
Proof.
  induction s1 as [|c s1 IH]; intros Hno; [done|].
  apply not_elem_of_cons in Hno as [Hc Hno]. simpl.
  assert (Ascii.eqb c newline = false) as ->
    by (apply Ascii.eqb_neq; congruence).
  by apply IH.
Qed.

Lemma literal_no_newline (t : string) :
  forallb (fun c => negb (Ascii.eqb c newline)) (py t) = true ->
  newline ∉ py t.
Proof.
  intros Hall Hin. rewrite forallb_forall in Hall.
  apply list_elem_of_In, Hall in Hin. by rewrite Ascii.eqb_refl in Hin.
Qed.

(** The marker is one line. *)
Lemma drop_first_line_section idx n chunk :
  drop_first_line (section_comment idx n ++ chunk) = chunk.
Proof.
  unfold section_comment. rewrite <- !app_assoc.
  rewrite drop_first_line_skip by (by apply literal_no_newline).
  rewrite drop_first_line_skip by apply str_of_nat_no_newline.
  rewrite drop_first_line_skip by (by apply literal_no_newline).
  rewrite drop_first_line_skip by apply str_of_nat_no_newline.
  rewrite drop_first_line_skip; [done|].
  destruct (Nat.ltb idx n); by apply literal_no_newline.
Qed.

End clipboard.

Lemma drop_first_line_sections n chunks :
  drop_first_line <$>
    imap (fun i chunk => section_comment (S i) n ++ chunk) chunks = chunks.
Proof.
  apply list_eq. intros i. rewrite list_lookup_fmap, list_lookup_imap.
  destruct (chunks !! i); [|done]. simpl. f_equal.
  apply drop_first_line_section.
Qed.

Example copy_to_clipboard_fixture :
  copy_to_clipboard (py "linux") fixture_run (py "abcdefg") 3
  = Ok {| delivered :=
            [section_comment 1 3 ++ py "abc"; section_comment 2 3 ++ py "def";
             section_comment 3 3 ++ py "g"];
          clipboard_log := [py "Copied 3 clipboard section(s)"] |}.
Proof. vm_compute. reflexivity. Qed.

(** * Further properties of the truncation-length solver *)

Section solver_range.
Implicit Types (W : gset str) (w s : str) (X Y : Z).

Lemma slice_to_short w X :
  Z.of_nat (length w) <= X -> slice_to w X = w.
Proof.
  intros Hlen. rewrite slice_to_nonneg by lia. apply take_ge. lia.
Qed.

(** The widths that [find_min_truncation_length] returns. *)
Lemma find_min_truncation_length_Some_iff W max_length X :
  find_min_truncation_length W max_length = Some X <->
  W <> ∅ /\
  1 <= X <= Z.min (Z.of_nat (max_word_length W)) max_length /\
  width_passes W X = true /\
  forall Y, 1 <= Y < X -> width_passes W Y = false.
Proof.
  unfold find_min_truncation_length.
  destruct (decide (W = ∅)) as [|Hne]; [split; [done | by intros [? _]]|].
  cbv zeta.
  set (len := Z.min (Z.of_nat (max_word_length W)) max_length + 1 - 1).
  split.
  - intros (Hr & Hp & Hmin)%scan_widths_Some.
    repeat split; [done | lia | lia | done | done].
  - intros (_ & Hr & Hp & Hmin).
    destruct (scan_widths W (seqZ 1 len)) as [X'|] eqn:Hscan.
    + apply scan_widths_Some in Hscan as (Hr' & Hp' & Hmin').
      f_equal. destruct (Z.lt_trichotomy X' X) as [Hlt|[->|Hgt]]; [|done|].
      * rewrite Hmin in Hp' by lia. discriminate.
      * rewrite Hmin' in Hp by lia. discriminate.
    + pose proof (scan_widths_None _ _ _ Hscan X) as Hfail.
      rewrite Hfail in Hp by lia. discriminate.
Qed.

(** A candidate that passes gives a result that is not larger. *)
Lemma find_min_truncation_length_le W max_length Y :
  W <> ∅ ->
  1 <= Y <= Z.min (Z.of_nat (max_word_length W)) max_length ->
  width_passes W Y = true ->
  exists X, find_min_truncation_length W max_length = Some X /\ X <= Y.
Proof.
  intros Hne HY Hp.
  destruct (find_min_truncation_length W max_length) as [X|] eqn:Hfind.
  - exists X. split; [done|].
    apply find_min_truncation_length_Some_iff in Hfind
      as (_ & _ & _ & Hmin).
    destruct (Z.le_gt_cases X Y) as [|Hgt]; [done|].
    rewrite Hmin in Hp by lia. discriminate.
  - unfold find_min_truncation_length in Hfind.
    destruct (decide (W = ∅)); [done|]. cbv zeta in Hfind.
    rewrite (scan_widths_None _ _ _ Hfind Y) in Hp by lia. discriminate.
Qed.

End solver_range.

(** X1. A width returned by [find_min_truncation_length] lies between 1
    and both [max_length] and the length of the longest word; for
    [max_length <= 0], and for the empty word set, the result is [None]. *)
Theorem find_min_truncation_length_range (W : gset str) (max_length : Z) :
  (forall X, find_min_truncation_length W max_length = Some X ->
             1 <= X <= max_length /\ X <= Z.of_nat (max_word_length W)) /\
  (max_length <= 0 -> find_min_truncation_length W max_length = None) /\
  find_min_truncation_length ∅ max_length = None.
Proof.
  split; [|split; [|done]].
  - intros X (_ & Hr & _)%find_min_truncation_length_Some_iff. lia.
  - intros Hm.
    destruct (find_min_truncation_length W max_length) as [X|] eqn:Hfind;
      [|done].
    apply find_min_truncation_length_Some_iff in Hfind as (_ & Hr & _). lia.
Qed.

(** X2. The bound [max_length] only matters when it cuts below the answer:
    a width [X] found under one bound is the width found under every bound
    that is at least [X]. *)
Theorem find_min_truncation_length_bound_stable
    (W : gset str) (max_length max_length' X : Z) :
  find_min_truncation_length W max_length = Some X ->
  X <= max_length' ->
  find_min_truncation_length W max_length' = Some X.
Proof.
  intros (Hne & Hr & Hp & Hmin)%find_min_truncation_length_Some_iff Hle.
  apply find_min_truncation_length_Some_iff.
  repeat split; [done | lia | lia | done | done].
Qed.

Lemma find_min_truncation_length_bound_stable_witness :
  find_min_truncation_length fixture_words 4 = Some 4.
Proof.
  apply (find_min_truncation_length_bound_stable fixture_words 80 4 4).
  - vm_compute. reflexivity.
  - lia.
Defined.

(** X3. Removing words never raises the width: when a width [X'] is found
    for a word set, every subset that holds a non-empty word gets a width
    too, and it is at most [X']. *)
Theorem find_min_truncation_length_subset
    (W W' : gset str) (max_length X' : Z) (w0 : str) :
  W ⊆ W' -> w0 ∈ W -> w0 <> [] ->
  find_min_truncation_length W' max_length = Some X' ->
  exists X, find_min_truncation_length W max_length = Some X /\ X <= X'.
Proof.
  intros Hsub Hw0 Hne0
    (_ & Hr & Hp & _)%find_min_truncation_length_Some_iff.
  assert (1 <= Z.of_nat (max_word_length W)) as Hlong.
  { pose proof (max_word_length_ge W w0 Hw0). destruct w0; [done|].
    simpl in *. lia. }
  apply width_passes_injective in Hp.
  set (Y := Z.min X' (Z.of_nat (max_word_length W))).
  destruct (find_min_truncation_length_le W max_length Y)
    as (X & Hfind & HX).
  - intros ->. set_solver.
  - unfold Y. lia.
  - apply width_passes_injective. intros w1 w2 H1 H2 Heq.
    destruct (Z.le_gt_cases X' (Z.of_nat (max_word_length W))) as [Hle|Hgt].
    + apply Hp; [by apply Hsub | by apply Hsub |].
      by replace Y with X' in Heq by (unfold Y; lia).
    + pose proof (max_word_length_ge W w1 H1).
      pose proof (max_word_length_ge W w2 H2).
      rewrite !slice_to_short in Heq by (unfold Y; lia). done.
  - exists X. split; [done|]. unfold Y in HX. lia.
Qed.

Lemma find_min_truncation_length_subset_witness :
  exists X, find_min_truncation_length cat_words 80 = Some X /\ X <= 4.
Proof.
  apply (find_min_truncation_length_subset
           cat_words fixture_words 80 4 (py "cat")).
  - apply (bool_decide_unpack _). vm_compute. reflexivity.
  - vm_compute. reflexivity.
  - discriminate.
  - vm_compute. reflexivity.
Defined.

(** * Further properties of get_unique_words and truncate_content *)

Section truncation.
Implicit Types (c : ascii) (s w content : str) (ps : list piece) (X Y : Z).

Lemma re_findall_words_truncate_content content X :
  1 <= X ->
  re_findall_words (truncate_content content X) =
  (fun w => truncate_string w X) <$> re_findall_words content.
Proof.
  intros HX. unfold re_findall_words.
  rewrite scan_words_truncate_content by done.
  rewrite (matches_of_map_matches (fun w => slice_to w X)).
  apply list_fmap_ext. intros _ w _. by rewrite truncate_string_slice.
Qed.

Lemma set_map_list_to_set_str (f : str -> str) (l : list str) :
  set_map f (list_to_set l : gset str) = (list_to_set (f <$> l) : gset str).
Proof.
  apply set_eq. intros w.
  rewrite elem_of_map, elem_of_list_to_set, list_elem_of_fmap.
  by setoid_rewrite elem_of_list_to_set.
Qed.

Lemma matches_of_elem w ps : Match w ∈ ps -> w ∈ matches_of ps.
Proof.
  intros Hin. unfold matches_of. apply list_elem_of_omap.
  by exists (Match w).
Qed.

Lemma matches_of_scanned ps :
  scanned ps -> Forall word_run (matches_of ps).
Proof.
  induction ps as [|[w|c] ps IH]; csimpl; [done|..].
  - intros (Hw & _ & Hps). unfold matches_of. csimpl.
    apply Forall_cons. split; [done | by apply IH].
  - intros [_ Hps]. by apply IH.
Qed.

Lemma scan_words_sep s1 c s2 :
  is_word c = false ->
  scan_words (s1 ++ c :: s2) = scan_words s1 ++ Gap c :: scan_words s2.
Proof.
  intros Hc. induction s1 as [|d s1 IH]; simpl; [by rewrite Hc|].
  rewrite IH. destruct (is_word d); [|done].
  by destruct (scan_words s1) as [|[w|e] ps].
Qed.

Lemma length_truncate_string w X :
  (length (truncate_string w X) <= length w)%nat.
Proof.
  rewrite truncate_string_slice. unfold slice_to.
  destruct (0 <=? X); rewrite length_take; lia.
Qed.

End truncation.

Lemma re_findall_words_nil (content : str) :
  re_findall_words content = [] <->
  Forall (fun c => is_word c = false) content.
Proof.
  unfold re_findall_words. induction content as [|c rest IH]; simpl.
  - split; [by constructor | done].
  - rewrite Forall_cons. destruct (is_word c) eqn:Hc.
    + split; [|by intros [? _]].
      by destruct (scan_words rest) as [|[w|d] ps].
    + csimpl. rewrite IH. split; [by split | by intros [_ ?]].
Qed.

Lemma scan_words_match_infix (content w : str) :
  Match w ∈ scan_words content ->
  exists before after, content = before ++ w ++ after.
Proof.
  intros (l1 & l2 & Hsplit)%list_elem_of_split.
  pose proof (concat_piece_text_scan content) as Hcat.
  rewrite Hsplit, fmap_app, concat_app in Hcat. csimpl in Hcat.
  by eexists _, _.
Qed.

(** X4. The words of a text are never empty: each one is a non-empty run
    of word characters that occurs in the text as a whole, and a text has
    no word exactly when it has no word character. *)
Theorem get_unique_words_word_runs (content : str) :
  (forall w, w ∈ get_unique_words content ->
             w <> [] /\ forallb is_word w = true /\
             exists before after, content = before ++ w ++ after) /\
  (get_unique_words content = ∅ <->
   Forall (fun c => is_word c = false) content).
Proof.
  split.
  - intros w Hw. unfold get_unique_words in Hw.
    apply elem_of_list_to_set in Hw.
    pose proof (matches_of_scanned _ (scan_words_scanned content)) as Hruns.
    rewrite Forall_forall in Hruns. destruct (Hruns w Hw) as [Hne Hall].
    split; [done|]. split; [done|].
    apply list_elem_of_omap in Hw as ([w'|c] & Hin & [= ->]).
    by apply scan_words_match_infix.
  - rewrite <- re_findall_words_nil. unfold get_unique_words.
    destruct (re_findall_words content) as [|w l]; [done|].
    split; [|done]. intros Hempty. exfalso.
    assert (w ∈ (∅ : gset str)) as Hin by (rewrite <- Hempty; set_solver).
    by apply not_elem_of_empty in Hin.
Qed.

(** X5. For a width [X >= 1], the words of the truncated text are the
    truncated words of the text. *)
Theorem get_unique_words_truncate_content (content : str) (X : Z) :
  1 <= X ->
  get_unique_words (truncate_content content X) =
  truncated_words (get_unique_words content) X.
Proof.
  intros HX. unfold get_unique_words, truncated_words.
  rewrite re_findall_words_truncate_content by done.
  by rewrite set_map_list_to_set_str.
Qed.

Lemma get_unique_words_truncate_content_witness :
  get_unique_words (truncate_content fixture_content 4) =
  truncated_words (get_unique_words fixture_content) 4.
Proof. apply (get_unique_words_truncate_content fixture_content 4). lia. Defined.

(** X6. Truncating a text at the width that the solver finds for its own
    words loses no distinction between words: the truncated text has as
    many distinct words as the text, and two word tokens of the text are
    cut to the same prefix only when they are the same word. *)
Theorem truncate_content_at_solved_width
    (content : str) (max_length X : Z) :
  find_min_truncation_length (get_unique_words content) max_length = Some X ->
  size (get_unique_words (truncate_content content X)) =
    size (get_unique_words content) /\
  forall w1 w2,
    w1 ∈ re_findall_words content -> w2 ∈ re_findall_words content ->
    truncate_string w1 X = truncate_string w2 X -> w1 = w2.
Proof.
  intros (_ & Hr & Hp & _)%find_min_truncation_length_Some_iff.
  split.
  - unfold width_passes, truncated_words in Hp. apply Nat.eqb_eq in Hp.
    rewrite <- Hp. unfold get_unique_words.
    rewrite re_findall_words_truncate_content by lia.
    by rewrite set_map_list_to_set_str.
  - apply width_passes_injective in Hp. intros w1 w2 H1 H2 Heq.
    rewrite !truncate_string_slice in Heq.
    apply Hp; [by apply elem_of_list_to_set.. | done].
Qed.

Lemma truncate_content_at_solved_width_witness :
  size (get_unique_words (truncate_content fixture_content 4)) =
  size (get_unique_words fixture_content).
Proof.
  apply (truncate_content_at_solved_width fixture_content 80 4).
  vm_compute. reflexivity.
Defined.

Lemma re_sub_words_ext_tokens (f g : str -> str) (content : str) :
  (forall w, w ∈ re_findall_words content -> f w = g w) ->
  re_sub_words f content = re_sub_words g content.
Proof.
  intros Hfg. unfold re_sub_words. f_equal.
  apply list_fmap_ext. intros i [w|c] Hin; [|done]. simpl.
  apply Hfg. apply list_elem_of_lookup_2 in Hin.
  by apply matches_of_elem.
Qed.

(** X7. For a width [X >= 1], [truncate_content] leaves a text as it is
    exactly when no word of the text is longer than [X]. *)
Theorem truncate_content_unchanged_iff (content : str) (X : Z) :
  1 <= X ->
  truncate_content content X = content <->
  Forall (fun w => Z.of_nat (length w) <= X) (re_findall_words content).
Proof.
  intros HX. split.
  - intros Hsame.
    pose proof (re_findall_words_truncate_content content X HX) as Hwords.
    rewrite Hsame in Hwords.
    apply Forall_forall. intros w Hw.
    assert (Forall (fun w => Z.of_nat (length w) <= X)
              ((fun w => truncate_string w X) <$> re_findall_words content))
      as Hcut.
    { apply Forall_fmap, Forall_forall. intros v _. simpl.
      rewrite truncate_string_slice, slice_to_nonneg, length_take by lia.
      lia. }
    rewrite <- Hwords in Hcut. rewrite Forall_forall in Hcut. by apply Hcut.
  - intros Hshort. unfold truncate_content.
    rewrite (re_sub_words_ext_tokens _ id).
    + apply concat_piece_text_scan.
    + intros w Hw. rewrite Forall_forall in Hshort.
      rewrite truncate_string_slice. apply slice_to_short. by apply Hshort.
Qed.

Lemma truncate_content_unchanged_iff_witness :
  truncate_content fixture_content 11 = fixture_content <->
  Forall (fun w => Z.of_nat (length w) <= 11)
         (re_findall_words fixture_content).
Proof. apply (truncate_content_unchanged_iff fixture_content 11). lia. Defined.

(** X8. Two truncations in a row, at widths [X >= 1] and [Y >= 1], are one
    truncation at the smaller width. *)
Theorem truncate_content_twice (content : str) (X Y : Z) :
  1 <= X -> 1 <= Y ->
  truncate_content (truncate_content content X) Y =
  truncate_content content (Z.min X Y).
Proof.
  intros HX HY. unfold truncate_content at 1. unfold re_sub_words.
  rewrite scan_words_truncate_content by done.
  rewrite piece_text_compose. unfold truncate_content, re_sub_words.
  f_equal. apply list_fmap_ext. intros _ [w|c] _; [|done]. simpl.
  rewrite !truncate_string_slice, !slice_to_nonneg by lia.
  rewrite take_take. f_equal. lia.
Qed.

Lemma truncate_content_twice_witness :
  truncate_content (truncate_content fixture_content 5) 3 =
  truncate_content fixture_content (Z.min 5 3).
Proof. apply (truncate_content_twice fixture_content 5 3); lia. Defined.

(** X9. At any width, negative ones included, [truncate_content] never
    makes a text longer; at width 0 it deletes every word and keeps the
    other characters. *)
Theorem truncate_content_never_longer (content : str) (X : Z) :
  (length (truncate_content content X) <= length content)%nat /\
  truncate_content content 0 = non_word_chars content.
Proof.
  split.
  - rewrite <- (concat_piece_text_scan content) at 2.
    unfold truncate_content, re_sub_words.
    induction (scan_words content) as [|[w|c] ps IH]; csimpl; [done|..].
    + rewrite !length_app. pose proof (length_truncate_string w X).
      change (id w) with w. lia.
    + lia.
  - rewrite <- (concat_piece_text_scan content) at 2.
    unfold truncate_content, re_sub_words.
    pose proof (scan_words_scanned content) as Hscan.
    induction (scan_words content) as [|[w|c] ps IH]; csimpl; [done|..].
    + destruct Hscan as ([_ Hw] & _ & Hps).
      change (id w) with w.
      rewrite non_word_chars_app, (non_word_chars_run w) by done.
      rewrite IH by done. rewrite truncate_string_slice.
      by destruct w.
    + destruct Hscan as [Hc Hps]. unfold non_word_chars in *. csimpl.
      rewrite Hc. csimpl. by rewrite IH.
Qed.

(** X10. A character that is not a word character is a boundary for
    [truncate_content]: the text on either side is truncated on its own. *)
Theorem truncate_content_at_separator (s1 s2 : str) (c : ascii) (X : Z) :
  is_word c = false ->
  truncate_content (s1 ++ c :: s2) X =
  truncate_content s1 X ++ c :: truncate_content s2 X.
Proof.
  intros Hc. unfold truncate_content, re_sub_words.
  rewrite scan_words_sep by done.
  by rewrite fmap_app, concat_app.
Qed.

Lemma truncate_content_at_separator_witness :
  truncate_content (py "alphabet" ++ newline :: py "soup") 3 =
  truncate_content (py "alphabet") 3 ++ newline :: truncate_content (py "soup") 3.
Proof.
  apply (truncate_content_at_separator (py "alphabet") (py "soup") newline 3).
  vm_compute. reflexivity.
Defined.

(** * Further properties of fnmatch, match_override and is_excluded *)

Section globs.
Implicit Types (c : ascii) (s name path pat : str) (r : regex).

Lemma re_match_here_star r s :
  re_match_here (RStar :: r) s = re_search r s.
Proof. induction s as [|c s IH]; [done|]. simpl in *. by rewrite IH. Qed.

Lemma re_search_star r s : re_search (RStar :: r) s = re_search r s.
Proof.
  induction s as [|c s IH].
  - simpl. by rewrite orb_false_r.
  - cbn [re_search]. rewrite IH, re_match_here_star. cbn [re_search].
    by destruct (re_match_here r (c :: s)), (re_search r s).
Qed.

Lemma re_search_app r s1 s2 :
  re_search r s2 = true -> re_search r (s1 ++ s2) = true.
Proof.
  intros Hs. induction s1 as [|c s1 IH]; [done|].
  cbn [app re_search]. rewrite IH. apply orb_true_r.
Qed.

Lemma fnmatch_translate_star_bare_name pat :
  bare_name pat ->
  fnmatch_translate ("*"%char :: pat) = RStar :: (RChar <$> pat) ++ [REnd].
Proof.
  intros H. unfold fnmatch_translate. cbn [glob_items]. simpl Ascii.eqb.
  rewrite glob_items_bare_name by done. cbn [compress_stars].
  rewrite compress_stars_chars. by destruct pat.
Qed.

Lemma fnmatch_bare_name name pat :
  bare_name pat -> fnmatch name pat = true <-> name = pat.
Proof.
  intros H. unfold fnmatch, fnmatchcase, normcase, re_match, re_compile.
  rewrite fnmatch_translate_bare_name by done. apply re_match_here_chars.
Qed.

Lemma fnmatch_star_bare_name name pat :
  bare_name pat ->
  fnmatch name ("*"%char :: pat) = true <-> pat `suffix_of` name.
Proof.
  intros H. unfold fnmatch, fnmatchcase, normcase, re_match, re_compile.
  rewrite fnmatch_translate_star_bare_name by done.
  rewrite (re_match_here_star ((RChar <$> pat) ++ [REnd])).
  apply re_search_suffix.
Qed.

Lemma is_excluded_app path (l1 l2 : list regex) :
  is_excluded path (l1 ++ l2) = is_excluded path l1 || is_excluded path l2.
Proof. rewrite !is_excluded_existsb. apply existsb_app. Qed.

End globs.

(** X11. An override whose pattern is a bare name applies to the files
    with exactly that base name, and an override [*NAME] applies to the
    files whose base name ends with [NAME], whatever the directory. *)
Theorem match_override_bare_name_and_suffix
    (file_path pat : str) (width : Z) :
  bare_name pat ->
  (match_override file_path [(pat, width)] = Some width <->
   basename file_path = pat) /\
  (match_override file_path [("*"%char :: pat, width)] = Some width <->
   pat `suffix_of` basename file_path).
Proof.
  intros Hbare. simpl. split.
  - rewrite <- (fnmatch_bare_name (basename file_path) pat) by done.
    by destruct (fnmatch (basename file_path) pat).
  - rewrite <- (fnmatch_star_bare_name (basename file_path) pat) by done.
    by destruct (fnmatch (basename file_path) ("*"%char :: pat)).
Qed.

Lemma match_override_bare_name_and_suffix_witness :
  match_override (py "/src/pkg/main.py") [(py "*.py", 50)] = Some 50 <->
  py ".py" `suffix_of` basename (py "/src/pkg/main.py").
Proof.
  apply (match_override_bare_name_and_suffix
           (py "/src/pkg/main.py") (py ".py") 50).
  repeat constructor; discriminate.
Defined.

(** X12. With a single pattern that is a bare name, [is_excluded] holds
    exactly of the paths that end with the name; putting a star before the
    name changes nothing. *)
Theorem is_excluded_bare_name_iff_suffix (path pat : str) :
  bare_name pat ->
  (is_excluded path (compile_exclusion_patterns [pat]) = true <->
   pat `suffix_of` path) /\
  is_excluded path (compile_exclusion_patterns ["*"%char :: pat]) =
  is_excluded path (compile_exclusion_patterns [pat]).
Proof.
  intros Hbare. unfold compile_exclusion_patterns, re_compile. csimpl.
  rewrite fnmatch_translate_bare_name by done.
  rewrite fnmatch_translate_star_bare_name by done.
  rewrite re_search_star. split; [|done].
  rewrite <- re_search_suffix.
  by destruct (re_search _ path).
Qed.

Lemma is_excluded_bare_name_iff_suffix_witness :
  is_excluded (py "/project/build")
              (compile_exclusion_patterns [py "build"]) = true <->
  py "build" `suffix_of` py "/project/build".
Proof.
  apply (is_excluded_bare_name_iff_suffix (py "/project/build") (py "build")).
  repeat constructor; discriminate.
Defined.

(** X13. Exclusion is kept under longer paths and longer pattern lists: a
    path that is excluded stays excluded when directories are put before
    it and when patterns are added on either side of the list. *)
Theorem is_excluded_monotone
    (path directory : str) (exclusions before after : list str) :
  is_excluded path (compile_exclusion_patterns exclusions) = true ->
  is_excluded (directory ++ path)
    (compile_exclusion_patterns (before ++ exclusions ++ after)) = true.
Proof.
  intros Hex. unfold compile_exclusion_patterns in *.
  rewrite !fmap_app, !is_excluded_app.
  assert (is_excluded (directory ++ path)
            ((fun pattern => re_compile (fnmatch_translate pattern))
               <$> exclusions) = true) as ->.
  { rewrite is_excluded_existsb in *.
    apply existsb_exists in Hex as (r & Hin & Hr).
    apply existsb_exists. exists r. split; [done|].
    by apply re_search_app. }
  by rewrite orb_true_r.
Qed.

Lemma is_excluded_monotone_witness :
  is_excluded (py "/home/user" ++ py "/project/build")
    (compile_exclusion_patterns
       (default_exclusions ++ [py "build"] ++ [py "*.orig"])) = true.
Proof.
  apply (is_excluded_monotone (py "/project/build") (py "/home/user")
           [py "build"] default_exclusions [py "*.orig"]).
  vm_compute. reflexivity.
Defined.

(** X14. An empty pattern and the pattern [*] exclude every path. *)
Theorem is_excluded_everything (path : str) (exclusions : list str) :
  [] ∈ exclusions \/ py "*" ∈ exclusions ->
  is_excluded path (compile_exclusion_patterns exclusions) = true.
Proof.
  intros Hin. rewrite is_excluded_existsb. apply existsb_exists.
  assert (forall s, re_search [REnd] s = true) as Hend.
  { intros s. induction s as [|c s IH]; [done|]. cbn [re_search].
    rewrite IH. apply orb_true_r. }
  destruct Hin as [Hin|Hin].
  - exists (re_compile (fnmatch_translate [])). split.
    + apply list_elem_of_In.
      by apply (list_elem_of_fmap_2 (fun p => re_compile (fnmatch_translate p))).
    + apply Hend.
  - exists (re_compile (fnmatch_translate (py "*"))). split.
    + apply list_elem_of_In.
      by apply (list_elem_of_fmap_2 (fun p => re_compile (fnmatch_translate p))).
    + change (re_search [RStar; REnd] path = true).
      rewrite re_search_star. apply Hend.
Qed.

Lemma is_excluded_everything_witness :
  is_excluded (py "/src/main.py")
              (compile_exclusion_patterns [py "*.log"; []]) = true.
Proof.
  apply (is_excluded_everything (py "/src/main.py") [py "*.log"; []]).
  left. apply (bool_decide_unpack _). vm_compute. reflexivity.
Defined.

(** * Further properties of parse_override_max_length *)

Section override_lists.
Implicit Types (override pattern text : str) (overrides : list str).
Implicit Types (parsed entries : list (str * Z)) (log messages : list str).

Lemma parse_override_loop_shift overrides :
  forall parsed log entries messages parsed0 log0,
  parse_override_loop overrides parsed log = Ok (entries, messages) ->
  parse_override_loop overrides (parsed0 ++ parsed) (log0 ++ log) =
    Ok (parsed0 ++ entries, log0 ++ messages).
Proof.
  induction overrides as [|o overrides IH];
    intros parsed log entries messages parsed0 log0; simpl.
  - by intros [= -> ->].
  - destruct (parse_override o) as [entry|[]]; [| |done].
    + intros Hrun. rewrite <- app_assoc. by apply IH.
    + intros Hrun. rewrite <- app_assoc. by apply IH.
Qed.

Lemma parse_override_loop_app overrides1 overrides2 :
  forall parsed log entries messages,
  parse_override_loop overrides1 parsed log = Ok (entries, messages) ->
  parse_override_loop (overrides1 ++ overrides2) parsed log =
    parse_override_loop overrides2 entries messages.
Proof.
  induction overrides1 as [|o overrides1 IH];
    intros parsed log entries messages; simpl.
  - by intros [= -> ->].
  - destruct (parse_override o) as [entry|[]]; [| |done]; apply IH.
Qed.

Lemma parse_override_positive override pattern (width : Z) :
  parse_override override = Ok (pattern, width) ->
  0 < width /\ ":"%char ∉ pattern.
Proof.
  intros (text & _ & Hpat & _ & Hpos)%parse_override_well_formed. done.
Qed.

Lemma parse_override_loop_positive overrides :
  forall parsed log entries messages,
  parse_override_loop overrides parsed log = Ok (entries, messages) ->
  Forall (fun e => 0 < e.2 /\ ":"%char ∉ e.1) parsed ->
  Forall (fun e => 0 < e.2 /\ ":"%char ∉ e.1) entries.
Proof.
  induction overrides as [|o overrides IH];
    intros parsed log entries messages; simpl.
  - by intros [= -> ->].
  - destruct (parse_override o) as [[pattern width]|[]] eqn:Ho; [| |done].
    + intros Hrun Hall. eapply IH; [done|].
      apply Forall_app. split; [done|].
      apply Forall_singleton. by apply parse_override_positive in Ho.
    + intros Hrun Hall. by eapply IH.
Qed.

Lemma match_override_elem file_path (entries : list (str * Z)) (width : Z) :
  match_override file_path entries = Some width ->
  exists pattern, (pattern, width) ∈ entries.
Proof.
  induction entries as [|[pattern w] entries IH]; simpl; [done|].
  destruct (fnmatch (basename file_path) pattern).
  - intros [= ->]. exists pattern. apply list_elem_of_here.
  - intros (p' & Hin)%IH. exists p'. by apply list_elem_of_further.
Qed.

End override_lists.

(** X15. The entries of a list of override specifications are parsed one
    by one: parsing two lists put together gives the entries of the first
    followed by those of the second, and likewise for the diagnostics. *)
Theorem parse_override_max_length_app (overrides1 overrides2 : list str) :
  exists entries1 log1 entries2 log2,
    parse_override_max_length overrides1 = Ok (entries1, log1) /\
    parse_override_max_length overrides2 = Ok (entries2, log2) /\
    parse_override_max_length (overrides1 ++ overrides2) =
      Ok (entries1 ++ entries2, log1 ++ log2).
Proof.
  unfold parse_override_max_length.
  destruct (parse_override_loop_spec overrides1 [] [])
    as (entries1 & log1 & Hrun1 & _).
  destruct (parse_override_loop_spec overrides2 [] [])
    as (entries2 & log2 & Hrun2 & _).
  simpl in Hrun1, Hrun2.
  exists entries1, log1, entries2, log2.
  split; [done|]. split; [done|].
  rewrite (parse_override_loop_app _ _ _ _ _ _ Hrun1).
  rewrite <- (app_nil_r entries1) at 1. rewrite <- (app_nil_r log1) at 1.
  by apply parse_override_loop_shift.
Qed.

(** X16. Every width that [match_override] finds among parsed overrides is
    at least 1, and no parsed pattern holds a colon. *)
Theorem parsed_overrides_positive
    (overrides : list str) (entries : list (str * Z)) (log : list str)
    (file_path : str) (width : Z) :
  parse_override_max_length overrides = Ok (entries, log) ->
  Forall (fun e => 1 <= e.2 /\ ":"%char ∉ e.1) entries /\
  (match_override file_path entries = Some width -> 1 <= width).
Proof.
  intros Hparse.
  assert (Forall (fun e => 0 < e.2 /\ ":"%char ∉ e.1) entries) as Hall.
  { eapply parse_override_loop_positive; [exact Hparse | constructor]. }
  split.
  - eapply Forall_impl; [exact Hall|]. simpl. intros e [? ?]. split; [lia|done].
  - intros (pattern & Hin)%match_override_elem.
    rewrite Forall_forall in Hall. destruct (Hall _ Hin) as [Hpos _].
    simpl in Hpos. lia.
Qed.

Lemma parsed_overrides_positive_witness :
  Forall (fun e => 1 <= e.2 /\ ":"%char ∉ e.1)
         [(py "*.py", 50); (py "*.md", 7)].
Proof.
  apply (parsed_overrides_positive
           [py "*.py:50"; py "bad"; py "x:0"; py "*.md: 7 "; py "y:ten"]
           [(py "*.py", 50); (py "*.md", 7)]
           (invalid_override_message <$> [py "bad"; py "x:0"; py "y:ten"])
           (py "/src/main.py") 50).
  vm_compute. reflexivity.
Defined.

(** * Reading back a width written in decimal *)

Section decimal.
Implicit Types (c d : ascii) (s ds rest : str) (x : N) (acc count k : Z).

Lemma pretty_N_char_digit x :
  (x < 10)%N ->
  Ascii.eqb (pretty_N_char x) "_" = false /\
  is_digit (pretty_N_char x) = true /\
  digit_value (pretty_N_char x) = Z.of_N x.
Proof.
  intros Hx.
  assert (x = 0 \/ x = 1 \/ x = 2 \/ x = 3 \/ x = 4 \/ x = 5 \/ x = 6 \/
          x = 7 \/ x = 8 \/ x = 9)%N as Hcases by lia.
  repeat destruct Hcases as [->|Hcases]; try subst x; by vm_compute.
Qed.

Lemma int_digits_app_digit ds d rest (after_digit : bool) acc count v n :
  (forall b acc count,
     int_digits (ds ++ d :: rest) b acc count =
     int_digits (d :: rest) true (acc * 10 ^ n + v) (count + n)) ->
  0 <= n ->
  Ascii.eqb d "_" = false -> is_digit d = true ->
  int_digits (ds ++ d :: rest) after_digit acc count =
  int_digits rest true (acc * 10 ^ (n + 1) + (10 * v + digit_value d))
             (count + (n + 1)).
Proof.
  intros Hds Hn Hu Hd. rewrite Hds. simpl. rewrite Hu, Hd.
  f_equal; [|lia]. rewrite Z.pow_add_r by lia. lia.
Qed.

(** The decimal digits of a positive number, and what [int_digits] makes
    of them. *)
Lemma pretty_N_go_int_digits x :
  (0 < x)%N ->
  exists ds,
    ds <> [] /\
    10 ^ (Z.of_nat (length ds) - 1) <= Z.of_N x /\
    (forall t : string, py (pretty_N_go x t) = ds ++ py t) /\
    (forall rest b acc count,
       int_digits (ds ++ rest) b acc count =
       int_digits rest true (acc * 10 ^ Z.of_nat (length ds) + Z.of_N x)
                  (count + Z.of_nat (length ds))).
Proof.
  induction (N.lt_wf_0 x) as [x _ IH]. intros Hx.
  destruct (pretty_N_char_digit (x `mod` 10)) as (Hu & Hd & Hv).
  { apply N.mod_lt. lia. }
  pose proof (N.div_mod x 10 ltac:(lia)) as Hdm.
  destruct (decide (x `div` 10 = 0)%N) as [Hz|Hnz].
  - exists [pretty_N_char (x `mod` 10)].
    split; [done|]. split; [simpl; lia|]. split.
    + intros t. rewrite pretty_N_go_step by done. by rewrite Hz.
    + intros rest b acc count. simpl. rewrite Hu, Hd, Hv.
      f_equal; lia.
  - destruct (IH (x `div` 10)%N) as (ds & Hne & Hlow & Hpy & Hint).
    { apply N.div_lt; lia. }
    { by apply N.neq_0_lt_0. }
    exists (ds ++ [pretty_N_char (x `mod` 10)]).
    split; [by destruct ds|].
    rewrite length_app, Nat2Z.inj_add. simpl length.
    split.
    { replace (Z.of_nat (length ds) + Z.of_nat 1 - 1)
        with (Z.of_nat (length ds) - 1 + 1) by lia.
      rewrite Z.pow_add_r; [|destruct ds; [done|simpl; lia]|lia].
      rewrite Z.pow_1_r. rewrite N2Z.inj_div in Hlow.
      change (Z.of_N 10) with 10 in Hlow.
      pose proof (Z.mul_div_le (Z.of_N x) 10 ltac:(lia)). lia. }
    split.
    + intros t. rewrite pretty_N_go_step by done. rewrite Hpy.
      by rewrite <- app_assoc.
    + intros rest b acc count. rewrite <- app_assoc. simpl app.
      rewrite (int_digits_app_digit ds _ rest b acc count
                 (Z.of_N (x `div` 10)) (Z.of_nat (length ds)));
        [|intros; apply Hint|lia|done|done].
      rewrite Hv. change (Z.of_nat 1) with 1. f_equal; lia.
Qed.

Lemma is_digit_not_int_space c : is_digit c = true -> is_int_space c = false.
Proof.
  destruct c as [[] [] [] [] [] [] [] []]; vm_compute; congruence.
Qed.

Lemma strip_with_digits ds :
  ds <> [] -> Forall (fun c => is_digit c = true) ds ->
  strip_with is_int_space ds = ds.
Proof.
  intros Hne Hall. unfold strip_with, rstrip_with.
  assert (lstrip_with is_int_space (reverse ds) = reverse ds) as ->.
  { apply Forall_reverse in Hall.
    destruct (reverse ds) as [|c s] eqn:Hrev; [done|].
    apply lstrip_with_head, is_digit_not_int_space.
    by apply Forall_cons in Hall as [? _]. }
  rewrite reverse_involutive.
  destruct ds as [|c s]; [done|].
  apply lstrip_with_head, is_digit_not_int_space.
  by apply Forall_cons in Hall as [? _].
Qed.

Lemma py_int_str_of_Z (width : Z) :
  0 < width < 10 ^ int_max_str_digits ->
  py_int (str_of_Z width) = Ok width.
Proof.
  intros [Hpos Hmax]. destruct width as [|q|q]; [lia| |lia].
  unfold str_of_Z, pretty, pretty_Z, pretty, pretty_positive, pretty,
    pretty_N.
  destruct (decide (N.pos q = 0%N)) as [|_]; [done|].
  destruct (pretty_N_go_int_digits (N.pos q)) as (ds & Hne & Hlow & Hpy & Hint);
    [lia|].
  pose proof (pretty_N_go_digits (N.pos q) EmptyString) as Hdigits.
  rewrite Hpy in *. simpl (py EmptyString) in *. rewrite app_nil_r in *.
  specialize (Hdigits ltac:(constructor)).
  unfold py_int. rewrite strip_with_digits by done.
  destruct ds as [|c s] eqn:Hds; [done|]. rewrite <- Hds in *.
  assert (int_signed ds = int_digits ds false 0 0) as ->.
  { subst ds. unfold int_signed.
    apply Forall_cons in Hdigits as [Hc _].
    destruct (Ascii.eqb_spec c "+") as [->|_]; [by vm_compute in Hc|].
    destruct (Ascii.eqb_spec c "-") as [->|_]; [by vm_compute in Hc|].
    done. }
  rewrite <- (app_nil_r ds) at 1. rewrite Hint. simpl.
  assert (Z.of_nat (length ds) <= int_max_str_digits) as Hcount.
  { destruct (Z.le_gt_cases (Z.of_nat (length ds)) int_max_str_digits)
      as [|Hgt]; [done|].
    exfalso.
    assert (10 ^ int_max_str_digits <= 10 ^ (Z.of_nat (length ds) - 1)).
    { apply Z.pow_le_mono_r; [lia|]. unfold int_max_str_digits in *. lia. }
    change (Z.of_N (N.pos q)) with (Z.pos q) in Hlow. lia. }
  destruct (Z.leb_spec (0 + Z.of_nat (length ds)) int_max_str_digits);
    [|lia].
  done.
Qed.

End decimal.

(** X17. Writing overrides as [PATTERN:INTEGER] and parsing them gives
    them back: for patterns without a colon and widths from 1 up to the
    interpreter's limit on the digits of an integer, every entry is kept,
    in order, and nothing is logged. *)
Theorem parse_override_max_length_round_trip (entries : list (str * Z)) :
  Forall (fun e => (":"%char ∉ e.1) /\ 0 < e.2 < 10 ^ int_max_str_digits)
         entries ->
  parse_override_max_length
    ((fun e => e.1 ++ ":"%char :: str_of_Z e.2) <$> entries)
  = Ok (entries, []).
Proof.
  unfold parse_override_max_length.
  induction 1 as [|[pattern width] entries [Hpat Hwidth] _ IH]; [done|].
  csimpl in *.
  assert (parse_override (pattern ++ ":"%char :: str_of_Z width)
          = Ok (pattern, width)) as ->.
  { apply parse_override_well_formed. exists (str_of_Z width).
    split; [done|]. split; [done|].
    split; [by apply py_int_integer_text, py_int_str_of_Z | lia]. }
  apply (parse_override_loop_shift _ [] [] entries [] [(pattern, width)] [])
    in IH.
  by rewrite app_nil_r in IH.
Qed.

Lemma parse_override_max_length_round_trip_witness :
  parse_override_max_length
    ((fun e => e.1 ++ ":"%char :: str_of_Z e.2) <$>
     [(py "*.py", 50); (py "README.md", 7)])
  = Ok ([(py "*.py", 50); (py "README.md", 7)], []).
Proof.
  apply (parse_override_max_length_round_trip
           [(py "*.py", 50); (py "README.md", 7)]).
  repeat constructor; simpl;
    try (apply (bool_decide_unpack _); by vm_compute);
    try lia; by apply Z.ltb_lt; vm_compute.
Defined.

(** * Further properties of copy_to_clipboard *)

Section clipboard_edges.
Implicit Types (text chunk payload : str) (chunks sent log : list str).
Implicit Types (m : Z) (n idx k : nat).

(** What the loop does in general: it delivers the sections up to the
    first one that the command refuses, and logs that failure. *)
Lemma send_sections_spec (run : str -> option str) n chunks :
  forall idx sent log,
  let sections :=
    imap (fun i chunk => section_comment (idx + i) n ++ chunk) chunks in
  exists done messages,
    send_sections run n idx chunks sent log = (sent ++ done, log ++ messages) /\
    done `prefix_of` sections /\
    Forall (fun payload => run payload = None) done /\
    ((done = sections /\ messages = []) \/
     exists payload e,
       sections !! length done = Some payload /\
       run payload = Some e /\
       messages = [py "Failed to copy chunk " ++
                   str_of_nat (idx + length done) ++
                   py " to clipboard: " ++ e]).
Proof.
  induction chunks as [|chunk chunks IH]; intros idx sent log sections.
  - exists [], []. rewrite !app_nil_r. repeat split; [done..|by left].
  - subst sections. cbn [send_sections imap].
    rewrite Nat.add_0_r.
    destruct (run (section_comment idx n ++ chunk)) as [e|] eqn:Hrun.
    + exists [], [py "Failed to copy chunk " ++ str_of_nat idx ++
                  py " to clipboard: " ++ e].
      split; [by rewrite app_nil_r|].
      split; [apply prefix_nil|]. split; [done|].
      right. exists (section_comment idx n ++ chunk), e. simpl.
      rewrite !Nat.add_0_r. done.
    + destruct (IH (S idx) (sent ++ [section_comment idx n ++ chunk]) log)
        as (done & messages & Heq & Hpre & Hall & Hcase).
      assert (imap (fun i c => section_comment (S idx + i) n ++ c) chunks =
              imap ((fun i c => section_comment (idx + i) n ++ c) ∘ S) chunks)
        as Hshift.
      { apply imap_ext. intros i c _. simpl.
        by replace (idx + S i)%nat with (S (idx + i)) by lia. }
      rewrite Hshift in *.
      exists ((section_comment idx n ++ chunk) :: done), messages.
      split; [by rewrite Heq, <- app_assoc|].
      split; [by apply prefix_cons|].
      split; [by apply Forall_cons|].
      destruct Hcase as [[-> ->]|(payload & e & Hlook & He & ->)];
        [by left|].
      right. exists payload, e. simpl.
      split; [done|]. split; [done|].
      by replace (idx + S (length done))%nat with (S idx + length done)%nat
        by lia.
Qed.

Lemma length_text_chunks text m chunks :
  0 < m -> text_chunks text m = Ok chunks ->
  Z.of_nat (length chunks) = (Z.of_nat (length text) + m - 1) / m.
Proof.
  intros Hm. rewrite text_chunks_pos by done. intros [= <-].
  rewrite length_fmap, length_seq. rewrite Z2Nat.id; [done|].
  apply Z.div_pos; lia.
Qed.

End clipboard_edges.

(** The marker line names the section and the total in decimal, and is
    one line. *)
Lemma section_comment_shape (idx n : nat) :
  exists rest,
    section_comment idx n =
      py "# Clipboard section " ++ py (pretty idx) ++ py " of " ++
      py (pretty n) ++ py "." ++ rest ++ [newline] /\
    newline ∉ rest.
Proof.
  unfold section_comment, str_of_nat. destruct (Nat.ltb idx n).
  - exists (py " It is imperative not to respond until all sections have been provided.").
    split; [reflexivity | by apply literal_no_newline].
  - exists (py " All sections have been provided. You may proceed with the response.").
    split; [reflexivity | by apply literal_no_newline].
Qed.

(** C6. For every text and every chunk length [m > 0], the chunks of
    [copy_to_clipboard] are contiguous slices of at most [m] characters, in
    order: their concatenation is the text, and a text of 25 characters
    with [m = 10] gives chunks of 10, 10 and 5 characters.  The section
    built for chunk number [i], counted from 1, is one marker line, which
    reads [# Clipboard section i of n.] with [n] the number of chunks and
    then a sentence, followed by the chunk; without their first lines the
    sections are the chunks, and concatenated they give the text back.
    What the clipboard command receives is these sections, in order: all
    of them, or those before the first one that the command refuses; on a
    platform without clipboard command, nothing. *)
Theorem copy_to_clipboard_chunking
    (platform : str) (run : str -> str -> option str) (text : str) (m : Z) :
  0 < m ->
  exists chunks sections,
    text_chunks text m = Ok chunks /\
    concat chunks = text /\
    Forall (fun chunk => Z.of_nat (length chunk) <= m) chunks /\
    (length text = 25%nat -> m = 10 ->
     length <$> chunks = [10; 10; 5]%nat) /\
    length sections = length chunks /\
    (forall i chunk,
       chunks !! i = Some chunk ->
       exists rest,
         sections !! i =
           Some (py "# Clipboard section " ++ py (pretty (S i)) ++
                 py " of " ++ py (pretty (length chunks)) ++ py "." ++
                 rest ++ newline :: chunk) /\
         newline ∉ rest) /\
    drop_first_line <$> sections = chunks /\
    concat (drop_first_line <$> sections) = text /\
    (dict_get platform platform_commands = None ->
     exists log,
       copy_to_clipboard platform run text m =
       Ok {| delivered := []; clipboard_log := log |}) /\
    (forall cmd,
       dict_get platform platform_commands = Some cmd ->
       exists trace,
         copy_to_clipboard platform run text m = Ok trace /\
         delivered trace `prefix_of` sections /\
         (delivered trace = sections \/
          exists payload e,
            sections !! length (delivered trace) = Some payload /\
            run cmd payload = Some e)).
Proof.
  intros Hm.
  destruct (text_chunks text m) as [chunks|e] eqn:Hchunks;
    [|by rewrite text_chunks_pos in Hchunks].
  pose proof (text_chunks_concat _ _ _ Hm Hchunks) as Hconcat.
  exists chunks,
    (imap (fun i chunk => section_comment (S i) (length chunks) ++ chunk)
          chunks).
  split; [done|]. split; [done|].
  split; [by eapply text_chunks_bounded|].
  split.
  { intros Hlen ->. rewrite text_chunks_pos, Hlen in Hchunks by done.
    injection Hchunks as <-.
    change (Z.to_nat ((Z.of_nat 25 + 10 - 1) / 10)) with 3%nat.
    csimpl. rewrite !length_take, !length_drop, Hlen. reflexivity. }
  split; [apply length_imap|].
  split.
  { intros i chunk Hlook.
    destruct (section_comment_shape (S i) (length chunks))
      as (rest & Heq & Hno).
    exists rest. split; [|done].
    assert (py "# Clipboard section " ++ py (pretty (S i)) ++ py " of " ++
            py (pretty (length chunks)) ++ py "." ++ rest ++ newline :: chunk
            = section_comment (S i) (length chunks) ++ chunk) as ->.
    { rewrite Heq. by rewrite <- !app_assoc. }
    by rewrite list_lookup_imap, Hlook. }
  rewrite drop_first_line_sections.
  split; [done|]. split; [done|].
  split.
  { intros Hnone. unfold copy_to_clipboard. rewrite Hnone. by eexists. }
  intros cmd Hcmd.
  destruct (send_sections_spec (run cmd) (length chunks) chunks 1 [] [])
    as (done & messages & Hrun & Hpre & _ & Hcase).
  exists {| delivered := done;
            clipboard_log :=
              messages ++ [py "Copied " ++ str_of_nat (length chunks) ++
                           py " clipboard section(s)"] |}.
  split.
  { unfold copy_to_clipboard. rewrite Hcmd, Hchunks. csimpl.
    by rewrite Hrun. }
  cbn [delivered]. split; [done|].
  destruct Hcase as [[-> _]|(payload & e & Hlook & He & _)]; [by left|].
  right. by exists payload, e.
Qed.

Lemma copy_to_clipboard_chunking_witness :
  exists chunks sections,
    text_chunks (py "abcdefghijklmnopqrstuvwxy") 10 = Ok chunks /\
    concat chunks = py "abcdefghijklmnopqrstuvwxy" /\
    Forall (fun chunk => Z.of_nat (length chunk) <= 10) chunks /\
    (length (py "abcdefghijklmnopqrstuvwxy") = 25%nat -> 10 = 10 ->
     length <$> chunks = [10; 10; 5]%nat) /\
    length sections = length chunks /\
    (forall i chunk,
       chunks !! i = Some chunk ->
       exists rest,
         sections !! i =
           Some (py "# Clipboard section " ++ py (pretty (S i)) ++
                 py " of " ++ py (pretty (length chunks)) ++ py "." ++
                 rest ++ newline :: chunk) /\
         newline ∉ rest) /\
    drop_first_line <$> sections = chunks /\
    concat (drop_first_line <$> sections)
      = py "abcdefghijklmnopqrstuvwxy" /\
    (dict_get (py "linux") platform_commands = None ->
     exists log,
       copy_to_clipboard (py "linux") fixture_run
                         (py "abcdefghijklmnopqrstuvwxy") 10 =
       Ok {| delivered := []; clipboard_log := log |}) /\
    (forall cmd,
       dict_get (py "linux") platform_commands = Some cmd ->
       exists trace,
         copy_to_clipboard (py "linux") fixture_run
                           (py "abcdefghijklmnopqrstuvwxy") 10 = Ok trace /\
         delivered trace `prefix_of` sections /\
         (delivered trace = sections \/
          exists payload e,
            sections !! length (delivered trace) = Some payload /\
            fixture_run cmd payload = Some e)).
Proof.
  apply (copy_to_clipboard_chunking
           (py "linux") fixture_run (py "abcdefghijklmnopqrstuvwxy") 10).
  lia.
Defined.

Example copy_to_clipboard_sections_fixture :
  copy_to_clipboard (py "linux") fixture_run (py "abcdefghijklmnopqrstuvwxy")
                    10
  = Ok {| delivered :=
            [py "# Clipboard section 1 of 3. It is imperative not to respond until all sections have been provided."
               ++ newline :: py "abcdefghij";
             py "# Clipboard section 2 of 3. It is imperative not to respond until all sections have been provided."
               ++ newline :: py "klmnopqrst";
             py "# Clipboard section 3 of 3. All sections have been provided. You may proceed with the response."
               ++ newline :: py "uvwxy"];
          clipboard_log := [py "Copied 3 clipboard section(s)"] |}.
Proof. vm_compute. reflexivity. Qed.

(** X18. Edge cases of [copy_to_clipboard].  On a platform without a
    clipboard command nothing is delivered and a warning is logged,
    whatever the chunk length.  On the other platforms a chunk length of 0
    raises [ValueError], a negative chunk length delivers nothing, and so
    does an empty text. *)
Theorem copy_to_clipboard_edge_cases
    (platform : str) (run : str -> str -> option str) (text : str) (m : Z) :
  (dict_get platform platform_commands = None ->
   copy_to_clipboard platform run text m =
   Ok {| delivered := [];
         clipboard_log :=
           [py "Clipboard copying not supported on " ++ platform] |}) /\
  (forall cmd, dict_get platform platform_commands = Some cmd ->
     copy_to_clipboard platform run text 0 = Raise ValueError /\
     (m < 0 \/ (0 < m /\ text = []) ->
      copy_to_clipboard platform run text m =
      Ok {| delivered := [];
            clipboard_log := [py "Copied 0 clipboard section(s)"] |})).
Proof.
  split.
  - intros Hnone. unfold copy_to_clipboard. by rewrite Hnone.
  - intros cmd Hcmd. unfold copy_to_clipboard. rewrite Hcmd. split; [done|].
    intros [Hneg|[Hpos ->]]; unfold text_chunks, range_from_zero.
    + destruct (Z.eqb_spec m 0) as [|_]; [lia|].
      destruct (Z.ltb_spec m 0) as [_|]; [done|lia].
    + destruct (Z.eqb_spec m 0) as [|_]; [lia|].
      destruct (Z.ltb_spec m 0) as [|_]; [lia|].
      simpl. rewrite Z.div_small by lia. done.
Qed.

(** X19. When the clipboard command fails, [copy_to_clipboard] stops at
    the first section that is refused: the sections delivered are the
    sections before it, in order, its failure is logged, and the last log
    line still reports the total number of chunks. *)
Theorem copy_to_clipboard_stops_at_failure
    (platform cmd : str) (run : str -> str -> option str)
    (text : str) (m : Z) :
  0 < m ->
  dict_get platform platform_commands = Some cmd ->
  exists chunks trace,
    text_chunks text m = Ok chunks /\
    copy_to_clipboard platform run text m = Ok trace /\
    let sections :=
      imap (fun i chunk => section_comment (S i) (length chunks) ++ chunk)
           chunks in
    let copied :=
      py "Copied " ++ str_of_nat (length chunks) ++
      py " clipboard section(s)" in
    delivered trace `prefix_of` sections /\
    Forall (fun payload => run cmd payload = None) (delivered trace) /\
    ((delivered trace = sections /\ clipboard_log trace = [copied]) \/
     exists payload e,
       sections !! length (delivered trace) = Some payload /\
       run cmd payload = Some e /\
       clipboard_log trace =
         [py "Failed to copy chunk " ++
          str_of_nat (S (length (delivered trace))) ++
          py " to clipboard: " ++ e; copied]).
Proof.
  intros Hm Hcmd.
  destruct (text_chunks text m) as [chunks|e] eqn:Hchunks;
    [|by rewrite text_chunks_pos in Hchunks].
  destruct (send_sections_spec (run cmd) (length chunks) chunks 1 [] [])
    as (done & messages & Hrun & Hpre & Hall & Hcase).
  exists chunks,
    {| delivered := done;
       clipboard_log :=
         messages ++ [py "Copied " ++ str_of_nat (length chunks) ++
                      py " clipboard section(s)"] |}.
  split; [done|]. split.
  { unfold copy_to_clipboard. rewrite Hcmd, Hchunks. csimpl.
    by rewrite Hrun. }
  cbn [delivered clipboard_log]. split; [done|]. split; [done|].
  destruct Hcase as [[-> ->]|(payload & e & Hlook & He & ->)]; [by left|].
  right. by exists payload, e.
Qed.

Lemma copy_to_clipboard_stops_at_failure_witness :
  exists chunks trace,
    text_chunks (py "abcdefg") 3 = Ok chunks /\
    copy_to_clipboard (py "darwin") fixture_run_fails (py "abcdefg") 3
      = Ok trace /\
    let sections :=
      imap (fun i chunk => section_comment (S i) (length chunks) ++ chunk)
           chunks in
    let copied :=
      py "Copied " ++ str_of_nat (length chunks) ++
      py " clipboard section(s)" in
    delivered trace `prefix_of` sections /\
    Forall (fun payload => fixture_run_fails (py "pbcopy") payload = None)
           (delivered trace) /\
    ((delivered trace = sections /\ clipboard_log trace = [copied]) \/
     exists payload e,
       sections !! length (delivered trace) = Some payload /\
       fixture_run_fails (py "pbcopy") payload = Some e /\
       clipboard_log trace =
         [py "Failed to copy chunk " ++
          str_of_nat (S (length (delivered trace))) ++
          py " to clipboard: " ++ e; copied]).
Proof.
  apply (copy_to_clipboard_stops_at_failure
           (py "darwin") (py "pbcopy") fixture_run_fails (py "abcdefg") 3).
  - lia.
  - reflexivity.
Defined.

Example copy_to_clipboard_failure_fixture :
  copy_to_clipboard (py "darwin") fixture_run_fails (py "abcdefg") 3
  = Ok {| delivered := [section_comment 1 3 ++ py "abc"];
          clipboard_log :=
            [py "Failed to copy chunk 2 to clipboard: exit status 1";
             py "Copied 3 clipboard section(s)"] |}.
Proof. vm_compute. reflexivity. Qed.

(** X20. For a chunk length [m > 0] the number of chunks is the length of
    the text divided by [m], rounded up; chunk [i] is the slice of the text
    that starts at [i * m]; no chunk is empty, and every chunk but the last
    has exactly [m] characters. *)
Theorem text_chunks_sizes (text : str) (m : Z) (chunks : list str) :
  0 < m ->
  text_chunks text m = Ok chunks ->
  Z.of_nat (length chunks) = (Z.of_nat (length text) + m - 1) / m /\
  forall i chunk,
    chunks !! i = Some chunk ->
    chunk = take (Z.to_nat m) (drop (i * Z.to_nat m) text) /\
    0 < Z.of_nat (length chunk) /\
    (S i < length chunks -> Z.of_nat (length chunk) = m)%nat.
Proof.
  intros Hm Hchunks.
  pose proof (length_text_chunks _ _ _ Hm Hchunks) as Hlen.
  split; [done|].
  rewrite text_chunks_pos in Hchunks by done. injection Hchunks as <-.
  intros i chunk Hlook.
  rewrite list_lookup_fmap in Hlook.
  destruct (seq 0 _ !! i) as [k|] eqn:Hk; [|done].
  apply lookup_seq in Hk as [-> Hi]. simpl in Hlook.
  injection Hlook as <-. split; [done|].
  rewrite length_take, length_drop.
  rewrite length_fmap, length_seq in *.
  set (n := Z.to_nat ((Z.of_nat (length text) + m - 1) / m)) in *.
  assert (Z.of_nat n * m < Z.of_nat (length text) + m) as Hupper.
  { rewrite Hlen.
    pose proof (Z.mul_div_le (Z.of_nat (length text) + m - 1) m Hm). lia. }
  split; [nia|]. intros Hlast. nia.
Qed.

Lemma text_chunks_sizes_witness :
  Z.of_nat (length [py "abc"; py "def"; py "g"]) =
  (Z.of_nat (length (py "abcdefg")) + 3 - 1) / 3.
Proof.
  apply (text_chunks_sizes (py "abcdefg") 3 [py "abc"; py "def"; py "g"]).
  - lia.
  - vm_compute. reflexivity.
Defined.

(** * Further properties of process_single_file *)

Section stripping.
Implicit Types (c : ascii) (s ws : str) (p : ascii -> bool).

Lemma is_space_not_word c : is_space c = true -> is_word c = false.
Proof. destruct c as [[] [] [] [] [] [] [] []]; vm_compute; congruence. Qed.

Lemma scan_words_gaps s ws :
  Forall (fun c => is_word c = false) ws ->
  scan_words (s ++ ws) = scan_words s ++ (Gap <$> ws).
Proof.
  intros Hall. revert s. induction Hall as [|c ws Hc _ IH]; intros s.
  - by rewrite !app_nil_r.
  - rewrite scan_words_sep by done. csimpl. f_equal. f_equal.
    apply (IH []).
Qed.

Lemma re_findall_words_rstrip s :
  re_findall_words (rstrip s) = re_findall_words s.
Proof.
  unfold rstrip. destruct (rstrip_with_split is_space s) as (ws & Heq & Hall).
  rewrite Heq at 2. unfold re_findall_words.
  rewrite scan_words_gaps.
  - rewrite omap_app. rewrite <- (app_nil_r (omap _ (scan_words _))) at 1.
    f_equal. clear. by induction ws.
  - eapply Forall_impl; [exact Hall|]. apply is_space_not_word.
Qed.

End stripping.

(** X21. [process_single_file] gives no line exactly when the file cannot
    be read or holds nothing but white space.  Otherwise it gives five
    lines: the heading with the relative path (the path itself when
    [relpath] raises [ValueError]), the opening fence with the language,
    the body without trailing white space, the closing fence and an empty
    line.  It raises only what [relpath] raises, [ValueError] apart. *)
Theorem process_single_file_sections
    (fs : file_system) (file_path default_encoding : str)
    (minify_python truncate : bool) (truncation_length : option Z)
    (overrides : list (str * Z)) :
  let result :=
    process_single_file fs file_path default_encoding minify_python
                        truncate truncation_length overrides in
  (result = Ok [] <->
   read_text fs file_path default_encoding = None \/
   exists content,
     read_text fs file_path default_encoding = Some content /\
     strip content = []) /\
  (forall lines,
     result = Ok lines -> lines <> [] ->
     exists relative_path language body,
       lines = [py "## " ++ relative_path; py "```" ++ language; body;
                py "```"; []] /\
       rstrip body = body /\
       (relpath fs file_path = Ok relative_path \/
        relpath fs file_path = Raise ValueError /\
        relative_path = file_path)) /\
  (forall e,
     result = Raise e -> relpath fs file_path = Raise e /\ e <> ValueError).
Proof.
  cbv zeta. unfold process_single_file, relative_path_of, section_lines.
  destruct (read_text fs file_path default_encoding) as [content|].
  - destruct (decide (strip content = [])) as [Hblank|Hfull].
    + split; [split; [right; by exists content | done]|].
      split; [by intros lines [= <-] | done].
    + destruct (relpath fs file_path) as [rel|[]] eqn:Hrel; csimpl.
      * split.
        { split; [done|]. intros [|(c & [= <-] & ?)]; done. }
        split; [|done]. intros lines [= <-] _. eexists _, _, _.
        split; [done|]. split; [apply rstrip_with_idemp | by left].
      * split.
        { split; [done|]. intros [|(c & [= <-] & ?)]; done. }
        split; [|done]. intros lines [= <-] _. eexists _, _, _.
        split; [done|]. split; [apply rstrip_with_idemp | by right].
      * split.
        { split; [done|]. intros [|(c & [= <-] & ?)]; done. }
        split; [done|]. by intros e [= <-].
  - split; [split; [by left | done]|].
    split; [by intros lines [= <-] | done].
Qed.

(** X22. In the section of a file that is truncated at a width [X >= 1],
    by a matching override or else by the global width, no word of the
    body is longer than [X]. *)
Theorem process_single_file_words_bounded
    (fs : file_system) (file_path default_encoding : str)
    (minify_python : bool) (truncation_length : option Z)
    (overrides : list (str * Z)) (heading fence body closing last : str)
    (X : Z) :
  process_single_file fs file_path default_encoding minify_python true
                      truncation_length overrides
    = Ok [heading; fence; body; closing; last] ->
  match_override file_path overrides = Some X \/
  match_override file_path overrides = None /\ truncation_length = Some X ->
  1 <= X ->
  Forall (fun w => Z.of_nat (length w) <= X) (re_findall_words body).
Proof.
  intros Hrun Hwidth HX.
  assert (forall source,
            apply_truncation file_path source true truncation_length overrides
            = truncate_content source X) as Happly.
  { intros source. unfold apply_truncation.
    by destruct Hwidth as [->|[-> ->]]. }
  unfold process_single_file, section_lines in Hrun.
  destruct (read_text fs file_path default_encoding) as [content|]; [|done].
  destruct (decide (strip content = [])); [done|].
  rewrite Happly in Hrun.
  destruct (relative_path_of fs file_path) as [rel|e]; [|done].
  injection Hrun as _ _ <-.
  rewrite re_findall_words_rstrip.
  rewrite re_findall_words_truncate_content by done.
  apply Forall_fmap, Forall_forall. intros w _. simpl.
  rewrite truncate_string_slice, slice_to_nonneg, length_take by lia. lia.
Qed.

Lemma process_single_file_words_bounded_witness :
  Forall (fun w => Z.of_nat (length w) <= 3) (re_findall_words (py "alp sou")).
Proof.
  apply (process_single_file_words_bounded
           fixture_fs (py "/src/main.py") (py "utf-8") false None
           [(py "*.md", 9); (py "*.py", 3); (py "main.*", 5)]
           (py "## src/main.py") (py "```python") (py "alp sou") (py "```")
           [] 3).
  - vm_compute. reflexivity.
  - left. vm_compute. reflexivity.
  - lia.
Defined.

(** * Properties of minify_python_code *)

Section minify.
Implicit Types (c : ascii) (s l line rest : str) (lines : list str).
Implicit Types (p : ascii -> bool).

Lemma strip_comments_no_hash s : forall b, "#"%char ∉ strip_comments s b.
Proof.
  induction s as [|c s IH]; intros b; simpl; [apply not_elem_of_nil|].
  destruct (Ascii.eqb_spec c newline) as [->|Hnl].
  { apply not_elem_of_cons. split; [done | apply IH]. }
  destruct b; [apply IH|].
  destruct (Ascii.eqb_spec c "#") as [->|Hh]; [apply IH|].
  apply not_elem_of_cons. split; [congruence | apply IH].
Qed.

Lemma strip_comments_id s :
  "#"%char ∉ s -> strip_comments s false = s.
Proof.
  induction s as [|c s IH]; [done|].
  intros [Hc Hs]%not_elem_of_cons. simpl. rewrite IH by done.
  destruct (Ascii.eqb c newline); [done|].
  destruct (Ascii.eqb_spec c "#"); [congruence | done].
Qed.

Lemma splitlines_from_chars s : forall line b l c,
  l ∈ splitlines_from s line b -> c ∈ l -> c ∈ line \/ c ∈ s.
Proof.
  induction s as [|d s IH]; intros line b l c; simpl.
  - destruct line; [by intros ?%elem_of_nil|].
    intros Hl%list_elem_of_singleton. subst l. by left.
  - destruct (Ascii.eqb d newline && b).
    { intros Hl Hc. destruct (IH _ _ _ _ Hl Hc); [by left|].
      right. by apply list_elem_of_further. }
    destruct (is_line_break d).
    + intros [->|Hl]%elem_of_cons Hc; [by left|].
      destruct (IH _ _ _ _ Hl Hc) as [?%elem_of_nil|]; [done|].
      right. by apply list_elem_of_further.
    + intros Hl Hc. destruct (IH _ _ _ _ Hl Hc) as [Hin|].
      * apply elem_of_app in Hin as [?|Hd%list_elem_of_singleton];
          [by left | subst c; right; apply list_elem_of_here].
      * right. by apply list_elem_of_further.
Qed.

Lemma splitlines_from_no_break s : forall line b,
  Forall (fun c => is_line_break c = false) line ->
  Forall (Forall (fun c => is_line_break c = false))
         (splitlines_from s line b).
Proof.
  induction s as [|d s IH]; intros line b Hline; simpl.
  - destruct line; [by constructor | by apply Forall_singleton].
  - destruct (Ascii.eqb d newline && b); [by apply IH|].
    destruct (is_line_break d) eqn:Hd.
    + apply Forall_cons. split; [done | by apply IH].
    + apply IH. apply Forall_app. split; [done | by apply Forall_singleton].
Qed.

Lemma lstrip_with_elem p s c : c ∈ lstrip_with p s -> c ∈ s.
Proof.
  destruct (lstrip_with_split p s) as (ws & Heq & _).
  intros Hin. rewrite Heq. apply elem_of_app. by right.
Qed.

Lemma strip_elem s c : c ∈ strip s -> c ∈ s.
Proof.
  unfold strip, strip_with. intros Hin%lstrip_with_elem.
  destruct (rstrip_with_split is_space s) as (ws & Heq & _).
  rewrite Heq. apply elem_of_app. by left.
Qed.

Lemma join_chars (sep : str) lines c :
  c ∈ join sep lines -> c ∈ sep \/ exists l, l ∈ lines /\ c ∈ l.
Proof.
  induction lines as [|l [|l' lines] IH].
  - by intros ?%elem_of_nil.
  - intros Hc. right. exists l. split; [apply list_elem_of_here | done].
  - change (join sep (l :: l' :: lines))
      with (l ++ sep ++ join sep (l' :: lines)).
    rewrite !elem_of_app. intros [Hc|[Hc|Hc]].
    + right. exists l. split; [apply list_elem_of_here | done].
    + by left.
    + destruct (IH Hc) as [|(l0 & Hin & Hl0)]; [by left|].
      right. exists l0. split; [by apply list_elem_of_further | done].
Qed.

End minify.

Section minify_lines.
Implicit Types (c : ascii) (s t l line rest : str) (lines : list str).
Implicit Types (p : ascii -> bool).

Lemma length_lstrip_with p s : (length (lstrip_with p s) <= length s)%nat.
Proof.
  induction s as [|c s IH]; simpl; [done|].
  destruct (p c); simpl; lia.
Qed.

Lemma lstrip_with_fixed_head p c s :
  lstrip_with p (c :: s) = c :: s -> p c = false.
Proof.
  simpl. destruct (p c); [|done]. intros Heq.
  pose proof (length_lstrip_with p s) as Hlen. rewrite Heq in Hlen.
  simpl in Hlen. lia.
Qed.

Lemma rstrip_with_lstrip_with p t :
  rstrip_with p t = t ->
  rstrip_with p (lstrip_with p t) = lstrip_with p t.
Proof.
  unfold rstrip_with. intros Hfix.
  assert (lstrip_with p (reverse t) = reverse t) as Hrev.
  { rewrite <- Hfix at 2. by rewrite reverse_involutive. }
  destruct (lstrip_with_split p t) as (ws & Heq & _).
  rewrite Heq, reverse_app in Hrev.
  destruct (reverse (lstrip_with p t)) as [|c u] eqn:Hu.
  - simpl. by rewrite <- Hu, reverse_involutive.
  - apply lstrip_with_fixed_head in Hrev.
    rewrite lstrip_with_head by done.
    by rewrite <- Hu, reverse_involutive.
Qed.

Lemma strip_with_idemp p s :
  strip_with p (strip_with p s) = strip_with p s.
Proof.
  unfold strip_with.
  rewrite rstrip_with_lstrip_with by apply rstrip_with_idemp.
  apply lstrip_with_idemp.
Qed.

Lemma splitlines_from_line l : forall rest line,
  Forall (fun c => is_line_break c = false) l ->
  splitlines_from (l ++ rest) line false =
  splitlines_from rest (line ++ l) false.
Proof.
  induction l as [|c l IH]; intros rest line Hl.
  - by rewrite app_nil_r.
  - apply Forall_cons in Hl as [Hc Hl]. simpl.
    rewrite andb_false_r, Hc, IH by done. by rewrite <- app_assoc.
Qed.

Lemma splitlines_join lines :
  Forall (fun l => l <> [] /\ Forall (fun c => is_line_break c = false) l)
         lines ->
  splitlines (join [newline] lines) = lines.
Proof.
  unfold splitlines.
  induction lines as [|l [|l' lines] IH]; intros Hall; [done|..].
  - apply Forall_cons in Hall as [[Hne Hl] _]. simpl.
    rewrite <- (app_nil_r l) at 1. rewrite splitlines_from_line by done.
    simpl. by destruct l.
  - apply Forall_cons in Hall as [[Hne Hl] Hall].
    change (join [newline] (l :: l' :: lines))
      with (l ++ newline :: join [newline] (l' :: lines)).
    rewrite splitlines_from_line by done.
    cbn [splitlines_from app]. rewrite andb_false_r.
    change (is_line_break newline) with true. cbv iota.
    change (Ascii.eqb newline "013") with false.
    by rewrite IH.
Qed.

(** The lines that [minify_python_code] joins. *)
Lemma minify_lines_clean content :
  let lines :=
    strip <$> List.filter (fun line => negb (bool_decide (strip line = [])))
                          (splitlines (strip_comments content false)) in
  Forall (fun l => l <> [] /\ strip l = l /\
                   Forall (fun c => is_line_break c = false) l /\
                   "#"%char ∉ l) lines.
Proof.
  cbv zeta. apply Forall_fmap, Forall_forall. intros line Hin.
  apply list_elem_of_In, filter_In in Hin as [Hin Hkeep].
  apply list_elem_of_In in Hin.
  apply negb_true_iff, bool_decide_eq_false in Hkeep. simpl.
  split; [done|]. split; [apply strip_with_idemp|].
  pose proof (splitlines_from_no_break (strip_comments content false) []
                false ltac:(constructor)) as Hbreaks.
  rewrite Forall_forall in Hbreaks. specialize (Hbreaks line Hin).
  rewrite Forall_forall in Hbreaks.
  split.
  - apply Forall_forall. intros c Hc%strip_elem. by apply Hbreaks.
  - intros Hc%strip_elem.
    destruct (splitlines_from_chars _ _ _ _ _ Hin Hc) as [?%elem_of_nil|Hs];
      [done|].
    by apply strip_comments_no_hash in Hs.
Qed.

End minify_lines.

Lemma strip_filter_clean (lines : list str) :
  Forall (fun l => l <> [] /\ strip l = l) lines ->
  strip <$> List.filter (fun line => negb (bool_decide (strip line = [])))
                        lines = lines.
Proof.
  induction 1 as [|l ls [Hne Hstrip] _ IH]; [done|].
  simpl. rewrite Hstrip.
  destruct (bool_decide_reflect (l = [])); [done|].
  csimpl. by rewrite Hstrip, IH.
Qed.

(** Clean lines joined by newlines are minified code already. *)
Lemma minify_python_code_join (lines : list str) :
  Forall (fun l => l <> [] /\ strip l = l /\
                   Forall (fun c => is_line_break c = false) l /\
                   ("#"%char ∉ l)) lines ->
  minify_python_code (join [newline] lines) = join [newline] lines.
Proof.
  intros Hclean. unfold minify_python_code.
  rewrite strip_comments_id.
  - rewrite splitlines_join.
    + f_equal. apply strip_filter_clean.
      eapply Forall_impl; [exact Hclean|].
      simpl. intros l (? & ? & _ & _). done.
    + eapply Forall_impl; [exact Hclean|].
      simpl. intros l (? & _ & ? & _). done.
  - intros [Hnl|(l & Hl & Hc)]%join_chars.
    + by apply list_elem_of_singleton in Hnl.
    + rewrite Forall_forall in Hclean.
      by destruct (Hclean l Hl) as (_ & _ & _ & Hno).
Qed.

Example minify_python_code_fixture :
  minify_python_code fixture_python =
  py "import os" ++ newline :: py "def f(x):" ++ newline :: py "return x".
Proof. vm_compute. reflexivity. Qed.

(** X23. The output of [minify_python_code] holds no [#]; it is made of
    the lines that [splitlines] reads back from it, and each of them is
    non-empty and has no white space at either end, so the output has no
    blank line, no indentation and no final newline. *)
Theorem minify_python_code_lines (content : str) :
  ("#"%char ∉ minify_python_code content) /\
  exists lines,
    minify_python_code content = join [newline] lines /\
    splitlines (minify_python_code content) = lines /\
    Forall (fun l => l <> [] /\ strip l = l /\ ("#"%char ∉ l)) lines.
Proof.
  pose proof (minify_lines_clean content) as Hclean. cbv zeta in Hclean.
  unfold minify_python_code.
  set (lines := strip <$> List.filter _ _) in *.
  split.
  - intros [Hnl|(l & Hl & Hc)]%join_chars.
    + by apply list_elem_of_singleton in Hnl.
    + rewrite Forall_forall in Hclean.
      by destruct (Hclean l Hl) as (_ & _ & _ & Hno).
  - exists lines. split; [done|]. split.
    + apply splitlines_join. eapply Forall_impl; [exact Hclean|].
      simpl. intros l (? & _ & ? & _). done.
    + eapply Forall_impl; [exact Hclean|].
      simpl. intros l (? & ? & _ & ?). done.
Qed.

(** X24. [minify_python_code] is idempotent: minified code is left as it
    is by a second pass. *)
Theorem minify_python_code_idempotent (content : str) :
  minify_python_code (minify_python_code content) =
  minify_python_code content.
Proof.
  unfold minify_python_code at 2 3.
  apply minify_python_code_join, minify_lines_clean.
Qed.

(** * Properties of the traversals *)

Section traversal.
Implicit Types (d sub : directory) (dirs : list subdirectory).
Implicit Types (top root p : str) (files : list str).
Implicit Types (keep : str -> bool) (followlinks : bool).

Lemma directory_nested_ind (P : directory -> Prop) :
  (forall dirs files,
     Forall (fun e => match e with Subdirectory _ _ sub => P sub end) dirs ->
     P (Directory dirs files)) ->
  forall d, P d.
Proof.
  intros H. fix IH 1. intros [dirs files]. apply H.
  induction dirs as [|[dirname islink sub] dirs IHdirs]; constructor.
  - apply IH.
  - exact IHdirs.
Qed.

Lemma walk_unfold followlinks keep top dirs files :
  walk followlinks keep top (Directory dirs files) =
  (top, files) ::
  flat_map
    (fun e => match e with
              | Subdirectory dirname islink sub =>
                  if keep (path_join top dirname) && (followlinks || negb islink)
                  then walk followlinks keep (path_join top dirname) sub
                  else []
              end)
    dirs.
Proof.
  simpl. f_equal.
  induction dirs as [|[dirname islink sub] dirs IH]; [done|].
  simpl. by rewrite IH.
Qed.

Lemma walk_reaches_iff followlinks keep d : forall top root files_in_dir,
  (root, files_in_dir) ∈ walk followlinks keep top d <->
  walk_reaches followlinks keep top d root files_in_dir.
Proof.
  induction d as [dirs files IH] using directory_nested_ind.
  intros top root files_in_dir. rewrite walk_unfold. split.
  - intros [Heq|Hin]%elem_of_cons.
    + injection Heq as -> ->. constructor.
    + apply list_elem_of_In, in_flat_map in Hin
        as ([dirname islink sub] & Hsub & Hin).
      apply list_elem_of_In in Hsub.
      destruct (keep (path_join top dirname)) eqn:Hkeep; [|by destruct Hin].
      destruct (followlinks || negb islink) eqn:Hlink; [|by destruct Hin].
      rewrite Forall_forall in IH. specialize (IH _ Hsub). simpl in IH.
      apply list_elem_of_In, IH in Hin.
      by eapply reaches_sub.
  - intros Hreach. inversion Hreach as [|? ? ? dirname islink sub ? ? Hsub Hkeep Hlink Hrest];
      subst.
    + apply list_elem_of_here.
    + apply list_elem_of_further, list_elem_of_In, in_flat_map.
      exists (Subdirectory dirname islink sub).
      split; [by apply list_elem_of_In|].
      rewrite Hkeep, Hlink. simpl.
      rewrite Forall_forall in IH. specialize (IH _ Hsub). simpl in IH.
      by apply list_elem_of_In, IH.
Qed.

End traversal.

Section loops.
Context {A B S : Type}.
Implicit Types (st : S).

Lemma foldl_flat_map (f : S -> B -> S) (g : A -> list B) (l : list A) :
  forall st,
  foldl f st (flat_map g l) = foldl (fun st x => foldl f st (g x)) st l.
Proof.
  induction l as [|x l IH]; intros st; [done|].
  simpl. by rewrite foldl_app, IH.
Qed.

Lemma foldl_filter_fmap (f : S -> B -> S) (h : A -> B) (keep : B -> bool)
    (l : list A) : forall st,
  foldl (fun st x => if keep (h x) then f st (h x) else st) st l =
  foldl f st (List.filter keep (h <$> l)).
Proof.
  induction l as [|x l IH]; intros st; [done|].
  csimpl. destruct (keep (h x)); simpl; by rewrite IH.
Qed.

Lemma for_each_app (body : B -> S -> result S) (l1 l2 : list B) :
  forall st,
  for_each body (l1 ++ l2) st =
  match for_each body l1 st with
  | Ok st' => for_each body l2 st'
  | Raise e => Raise e
  end.
Proof.
  induction l1 as [|x l1 IH]; intros st; [done|].
  simpl. destruct (body x st); [apply IH | done].
Qed.

Lemma for_each_flat_map (body : B -> S -> result S) (g : A -> list B)
    (l : list A) : forall st,
  for_each body (flat_map g l) st =
  for_each (fun x st => for_each body (g x) st) l st.
Proof.
  induction l as [|x l IH]; intros st; [done|].
  simpl. rewrite for_each_app.
  destruct (for_each body (g x) st); [apply IH | done].
Qed.

Lemma for_each_filter_fmap (body : B -> S -> result S) (h : A -> B)
    (keep : B -> bool) (l : list A) : forall st,
  for_each (fun x st => if keep (h x) then body (h x) st else Ok st) l st =
  for_each body (List.filter keep (h <$> l)) st.
Proof.
  induction l as [|x l IH]; intros st; [done|].
  csimpl. destruct (keep (h x)); simpl; [|apply IH].
  destruct (body (h x) st); [apply IH | done].
Qed.

Lemma for_each_ext (body1 body2 : A -> S -> result S) (l : list A) :
  (forall x st, body1 x st = body2 x st) ->
  forall st, for_each body1 l st = for_each body2 l st.
Proof.
  intros Hext. induction l as [|x l IH]; intros st; [done|].
  simpl. rewrite Hext. destruct (body2 x st); [apply IH | done].
Qed.

Lemma foldl_ext_all (f1 f2 : S -> A -> S) (l : list A) :
  (forall st x, f1 st x = f2 st x) ->
  forall st, foldl f1 st l = foldl f2 st l.
Proof.
  intros Hext. induction l as [|x l IH]; intros st; [done|].
  simpl. by rewrite Hext, IH.
Qed.

End loops.

Section traversal_loops.
Implicit Types (fs : file_system) (ps : path_system).
Implicit Types (files : list str) (exclusion_patterns : list regex).

(** [collect_unique_words] reads the visited files, in order. *)
Lemma collect_unique_words_visited fs ps files exclusion_patterns
    default_encoding :
  collect_unique_words fs ps files exclusion_patterns default_encoding =
  foldl (fun words p => read_words fs default_encoding p words) ∅
        (visited_files ps false exclusion_patterns files).
Proof.
  unfold collect_unique_words, visited_files.
  rewrite foldl_flat_map. apply foldl_ext_all. intros words file_path.
  cbv zeta. destruct (path_lookup ps _) as [kind|]; [|done].
  destruct (is_excluded _ _); [done|].
  destruct kind as [|d|]; [done| |done].
  unfold walked_files. rewrite foldl_flat_map.
  apply foldl_ext_all. intros words' [root files_in_dir].
  rewrite <- (foldl_filter_fmap
                (fun words p => read_words fs default_encoding p words)
                (path_join root)
                (fun p => negb (is_excluded p exclusion_patterns))).
  apply foldl_ext_all. intros words'' file_name.
  by destruct (is_excluded _ _).
Qed.

(** The loop of [process_files] processes the visited files, in order. *)
Lemma process_files_loop_visited ps files exclusion_patterns follow_symlinks
    (process : str -> list str * nat -> result (list str * nat)) st :
  for_each
    (fun file_path st =>
       let full_path := abspath ps file_path in
       match path_lookup ps full_path with
       | None => Ok st
       | Some kind =>
           if is_excluded full_path exclusion_patterns then Ok st
           else
             match kind with
             | IsFile => process full_path st
             | IsDir d =>
                 for_each
                   (fun '(root, files_in_dir) st =>
                      for_each
                        (fun file_name st =>
                           let file_full_path := path_join root file_name in
                           if is_excluded file_full_path exclusion_patterns
                           then Ok st
                           else process file_full_path st)
                        files_in_dir st)
                   (walk follow_symlinks
                         (fun p => negb (is_excluded p exclusion_patterns))
                         full_path d)
                   st
             | IsOther => Ok st
             end
       end)
    files st =
  for_each process (visited_files ps follow_symlinks exclusion_patterns files)
           st.
Proof.
  unfold visited_files. rewrite for_each_flat_map.
  apply for_each_ext. intros file_path st'. cbv zeta.
  destruct (path_lookup ps _) as [kind|]; [|done].
  destruct (is_excluded _ _); [done|].
  destruct kind as [|d|]; [by simpl; destruct (process _ _)| |done].
  unfold walked_files. rewrite for_each_flat_map.
  apply for_each_ext. intros [root files_in_dir] st''.
  rewrite <- (for_each_filter_fmap process (path_join root)
                (fun p => negb (is_excluded p exclusion_patterns))).
  apply for_each_ext. intros file_name st'''.
  by destruct (is_excluded _ _).
Qed.

End traversal_loops.

Section traversal_results.
Implicit Types (fs : file_system) (ps : path_system).
Implicit Types (files paths : list str) (exclusion_patterns : list regex).

Lemma foldl_read_words_elem fs default_encoding paths : forall words w,
  w ∈ foldl (fun words p => read_words fs default_encoding p words)
            words paths <->
  w ∈ words \/
  exists p content,
    p ∈ paths /\ read_text fs p default_encoding = Some content /\
    w ∈ get_unique_words content.
Proof.
  induction paths as [|q paths IH]; intros words w; simpl.
  - split; [by left|]. intros [?|(p & c & ?%elem_of_nil & _)]; done.
  - rewrite IH. unfold read_words.
    destruct (read_text fs q default_encoding) as [content|] eqn:Hq.
    + rewrite elem_of_union. split.
      * intros [[?|?]|(p & c & Hp & Hc & Hw)]; [by left| |].
        -- right. exists q, content. split; [apply list_elem_of_here|done].
        -- right. exists p, c. split; [by apply list_elem_of_further|done].
      * intros [?|(p & c & Hp & Hc & Hw)]; [by left; left|].
        apply elem_of_cons in Hp as [->|Hp].
        -- left. right. congruence.
        -- right. by exists p, c.
    + split.
      * intros [?|(p & c & Hp & Hc & Hw)]; [by left|].
        right. exists p, c. split; [by apply list_elem_of_further|done].
      * intros [?|(p & c & Hp & Hc & Hw)]; [by left|].
        apply elem_of_cons in Hp as [->|Hp]; [congruence|].
        right. by exists p, c.
Qed.

Lemma walked_files_iff followlinks exclusion_patterns top d p :
  p ∈ walked_files followlinks exclusion_patterns top d <->
  exists root files_in_dir file_name,
    walk_reaches followlinks
                 (fun q => negb (is_excluded q exclusion_patterns))
                 top d root files_in_dir /\
    file_name ∈ files_in_dir /\
    p = path_join root file_name /\
    is_excluded p exclusion_patterns = false.
Proof.
  unfold walked_files. rewrite list_elem_of_In, in_flat_map. split.
  - intros ([root files_in_dir] & Hwalk & Hin).
    apply filter_In in Hin as [Hin Hkeep].
    apply list_elem_of_In, list_elem_of_fmap in Hin as (file_name & -> & Hname).
    exists root, files_in_dir, file_name.
    split; [by apply walk_reaches_iff, list_elem_of_In|].
    split; [done|]. split; [done|]. by apply negb_true_iff.
  - intros (root & files_in_dir & file_name & Hreach & Hname & -> & Hkeep).
    exists (root, files_in_dir).
    split; [by apply list_elem_of_In, walk_reaches_iff|].
    apply filter_In. split; [|by apply negb_true_iff].
    by apply list_elem_of_In, list_elem_of_fmap_2.
Qed.

End traversal_results.

Lemma walk_reaches_kept (followlinks : bool) (keep : str -> bool)
    (top : str) (d : directory) (root : str) (files_in_dir : list str) :
  walk_reaches followlinks keep top d root files_in_dir ->
  root = top \/ keep root = true.
Proof.
  induction 1 as [|top dirs files dirname islink sub root files_in_dir
                   _ Hkeep _ _ IH]; [by left|].
  right. by destruct IH as [->|?].
Qed.

(** X25. The traversal visits a path exactly when it is an argument that
    is a file, or a file reached below an argument that is a directory
    through sub-directories none of which is excluded (and none of which
    is a symbolic link, unless links are followed); the argument and the
    file itself must not be excluded either.  Each path is tested as a
    whole: no visited path is excluded, and every directory that a walk
    enters below its argument is itself not excluded.  An argument that
    lies inside an excluded directory is visited all the same, as long as
    its own path is not excluded. *)
Theorem visited_files_iff
    (ps : path_system) (followlinks : bool)
    (exclusion_patterns : list regex) (files : list str) (p : str) :
  (p ∈ visited_files ps followlinks exclusion_patterns files <->
   exists file_path kind,
     file_path ∈ files /\
     path_lookup ps (abspath ps file_path) = Some kind /\
     is_excluded (abspath ps file_path) exclusion_patterns = false /\
     match kind with
     | IsFile => p = abspath ps file_path
     | IsDir d =>
         exists root files_in_dir file_name,
           walk_reaches followlinks
                        (fun q => negb (is_excluded q exclusion_patterns))
                        (abspath ps file_path) d root files_in_dir /\
           file_name ∈ files_in_dir /\
           p = path_join root file_name /\
           is_excluded p exclusion_patterns = false
     | IsOther => False
     end) /\
  (p ∈ visited_files ps followlinks exclusion_patterns files ->
   is_excluded p exclusion_patterns = false) /\
  (forall top d root files_in_dir,
     walk_reaches followlinks
                  (fun q => negb (is_excluded q exclusion_patterns))
                  top d root files_in_dir ->
     root = top \/ is_excluded root exclusion_patterns = false).
Proof.
  assert (p ∈ visited_files ps followlinks exclusion_patterns files <->
          exists file_path kind,
            file_path ∈ files /\
            path_lookup ps (abspath ps file_path) = Some kind /\
            is_excluded (abspath ps file_path) exclusion_patterns = false /\
            match kind with
            | IsFile => p = abspath ps file_path
            | IsDir d =>
                p ∈ walked_files followlinks exclusion_patterns
                                 (abspath ps file_path) d
            | IsOther => False
            end) as Hiff.
  { unfold visited_files. rewrite list_elem_of_In, in_flat_map. split.
    - intros (file_path & Hfile & Hin). cbv zeta in Hin.
      destruct (path_lookup ps _) as [kind|] eqn:Hkind; [|done].
      destruct (is_excluded _ _) eqn:Hex; [done|].
      exists file_path, kind. split; [by apply list_elem_of_In|].
      split; [done|]. split; [done|].
      destruct kind as [|d|]; [|by apply list_elem_of_In|done].
      by destruct Hin as [<-|[]].
    - intros (file_path & kind & Hfile & Hkind & Hex & Hp).
      exists file_path. split; [by apply list_elem_of_In|].
      cbv zeta. rewrite Hkind, Hex.
      destruct kind as [|d|]; [by left|by apply list_elem_of_In|done]. }
  split.
  - rewrite Hiff. split.
    + intros (file_path & kind & Hfile & Hkind & Hex & Hp).
      exists file_path, kind. repeat (split; [done|]).
      destruct kind as [|d|]; [done| |done]. by apply walked_files_iff.
    + intros (file_path & kind & Hfile & Hkind & Hex & Hp).
      exists file_path, kind. repeat (split; [done|]).
      destruct kind as [|d|]; [done| |done]. by apply walked_files_iff.
  - split.
    + intros (file_path & kind & Hfile & Hkind & Hex & Hp)%Hiff.
      destruct kind as [|d|]; [by subst| |done].
      by apply walked_files_iff in Hp as (? & ? & ? & _ & _ & _ & ?).
    + intros top d root files_in_dir [->|Hkept]%walk_reaches_kept;
        [by left | right; by apply negb_true_iff].
Qed.

Example visited_files_argument_in_excluded_directory :
  visited_files
    {| abspath := fun file_path => py "/work/" ++ file_path;
       path_lookup := fun _ => Some IsFile |}
    false (compile_exclusion_patterns [py "build"])
    [py "build"; py "build/file.py"]
  = [py "/work/build/file.py"].
Proof. vm_compute. reflexivity. Qed.

(** X26. [collect_unique_words] returns the words of the files that the
    traversal visits without following symbolic links and that can be
    read: a word is collected exactly when it is a word of such a file. *)
Theorem collect_unique_words_iff
    (fs : file_system) (ps : path_system) (files : list str)
    (exclusion_patterns : list regex) (default_encoding w : str) :
  w ∈ collect_unique_words fs ps files exclusion_patterns default_encoding
  <->
  exists p content,
    p ∈ visited_files ps false exclusion_patterns files /\
    read_text fs p default_encoding = Some content /\
    w ∈ get_unique_words content.
Proof.
  rewrite collect_unique_words_visited, foldl_read_words_elem.
  split; [|by right]. intros [Hin|?]; [|done].
  by apply not_elem_of_empty in Hin.
Qed.

Example collect_unique_words_fixture :
  visited_files fixture_ps false (compile_exclusion_patterns [py "build"])
                [py "src"; py "missing"]
    = [py "/work/src/main.txt"; py "/work/src/docs/notes.txt"] /\
  collect_unique_words fixture_tree_fs fixture_ps [py "src"; py "missing"]
    (compile_exclusion_patterns [py "build"]) (py "utf-8") = fixture_words.
Proof. split; vm_compute; reflexivity. Qed.

Section process_files_results.
Implicit Types (fs : file_system) (paths : list str).
Implicit Types (output : list str) (results : list (list str)).

Lemma for_each_process_one fs default_encoding minify_python truncate
    truncation_length overrides paths :
  forall output n,
  match for_each (process_one fs default_encoding minify_python truncate
                              truncation_length overrides)
                 paths (output, n) with
  | Ok (output', n') =>
      exists results,
        Forall2 (fun p r =>
                   process_single_file fs p default_encoding minify_python
                                       truncate truncation_length overrides
                   = Ok r) paths results /\
        output' = output ++ concat results /\
        n' = (n + sections_given results)%nat
  | Raise e =>
      exists p,
        p ∈ paths /\
        process_single_file fs p default_encoding minify_python truncate
                            truncation_length overrides = Raise e
  end.
Proof.
  induction paths as [|p paths IH]; intros output n.
  - simpl. exists []. split; [constructor|].
    split; [by rewrite app_nil_r | unfold sections_given; simpl; lia].
  - cbn [for_each]. unfold process_one at 1.
    destruct (process_single_file fs p _ _ _ _ _) as [[|line lines]|e] eqn:Hp.
    + specialize (IH output n).
      destruct (for_each _ paths (output, n)) as [[output' n']|e].
      * destruct IH as (results & Hall & -> & ->).
        exists ([] :: results). split; [by constructor|]. done.
      * destruct IH as (q & Hq & Hraise). exists q.
        split; [by apply list_elem_of_further | done].
    + cbn [fst snd]. specialize (IH (output ++ line :: lines) (S n)).
      destruct (for_each _ paths _) as [[output' n']|e].
      * destruct IH as (results & Hall & -> & ->).
        exists ((line :: lines) :: results). split; [by constructor|].
        split; [by rewrite <- app_assoc|].
        unfold sections_given. simpl. lia.
      * destruct IH as (q & Hq & Hraise). exists q.
        split; [by apply list_elem_of_further | done].
    + exists p. split; [apply list_elem_of_here | done].
Qed.

End process_files_results.

(** X27. The document of [process_files] is, joined by newlines: the
    verbose header if asked for, then the sections that
    [process_single_file] gives for the visited files, in the order of the
    visit and all at the same global width, then, if verbose, the summary
    whose count is the number of files that gave a section.  The function
    raises only what [process_single_file] raises on a visited file. *)
Theorem process_files_document
    (fs : file_system) (ps : path_system) (argv files : list str)
    (exclusion_patterns : list regex) (follow_symlinks : bool)
    (default_encoding : str) (minify_python truncate : bool)
    (max_length : Z) (overrides : list (str * Z)) (unique_words : gset str)
    (verbose : bool) :
  let truncation_length :=
    global_truncation_length truncate unique_words max_length in
  let visited :=
    visited_files ps follow_symlinks exclusion_patterns files in
  let result :=
    process_files fs ps argv files exclusion_patterns follow_symlinks
                  default_encoding minify_python truncate max_length
                  overrides unique_words verbose in
  (forall text,
     result = Ok text ->
     exists results,
       Forall2 (fun p r =>
                  process_single_file fs p default_encoding minify_python
                                      truncate truncation_length overrides
                  = Ok r) visited results /\
       text =
       join [newline]
         ((if verbose
           then build_verbose_output argv truncate unique_words max_length
                  overrides follow_symlinks default_encoding minify_python
                  exclusion_patterns
           else []) ++
          concat results ++
          (if verbose
           then [py "# Summary";
                 py "- Number of files processed: " ++
                 str_of_nat (sections_given results);
                 []]
           else []))) /\
  (forall e,
     result = Raise e ->
     exists p,
       p ∈ visited /\
       process_single_file fs p default_encoding minify_python truncate
                           truncation_length overrides = Raise e).
Proof.
  cbv zeta. unfold process_files.
  rewrite process_files_loop_visited.
  match goal with |- context [for_each ?body ?l (?out, ?n)] =>
    pose proof (for_each_process_one fs default_encoding minify_python
                  truncate
                  (global_truncation_length truncate unique_words max_length)
                  overrides l out n) as Hloop;
    destruct (for_each body l (out, n)) as [[output n']|e0]
  end.
  - destruct Hloop as (results & Hall & -> & ->). split; [|done].
    intros text [= <-]. exists results. split; [done|].
    by rewrite <- app_assoc.
  - destruct Hloop as (p & Hp & Hraise). split; [done|].
    intros e [= <-]. by exists p.
Qed.

Example process_files_fixture :
  process_files fixture_tree_fs fixture_ps [] [py "src"]
    (compile_exclusion_patterns [py "build"]) false (py "utf-8") false true
    80 [] fixture_words false
  = Ok (join [newline]
          [py "## src/main.txt"; py "```plaintext"; py "cat cate"; py "```";
           []; py "## src/docs/notes.txt"; py "```plaintext"; py "dog dogm";
           py "```"; []]).
Proof. vm_compute. reflexivity. Qed.

(** X28. When the solver finds a width [X] for the words that
    [collect_unique_words] gathers, [X] is at least 1 and keeps apart the
    words of the files of the traversal that does not follow symbolic
    links: two word tokens taken from such files, the same file or not,
    are cut to the same text at [X] only when they are equal.  These are
    the files that [process_files] visits when [follow_symlinks] is false;
    files that it reaches through a symbolic link are not covered. *)
Theorem global_width_keeps_words_distinct
    (fs : file_system) (ps : path_system) (files : list str)
    (exclusion_patterns : list regex) (default_encoding : str)
    (max_length X : Z) :
  global_truncation_length true
    (collect_unique_words fs ps files exclusion_patterns default_encoding)
    max_length = Some X ->
  1 <= X /\
  forall p1 p2 content1 content2 w1 w2,
    p1 ∈ visited_files ps false exclusion_patterns files ->
    p2 ∈ visited_files ps false exclusion_patterns files ->
    read_text fs p1 default_encoding = Some content1 ->
    read_text fs p2 default_encoding = Some content2 ->
    w1 ∈ re_findall_words content1 ->
    w2 ∈ re_findall_words content2 ->
    truncate_string w1 X = truncate_string w2 X -> w1 = w2.
Proof.
  unfold global_truncation_length.
  intros (_ & Hr & Hp & _)%find_min_truncation_length_Some_iff.
  split; [lia|].
  apply width_passes_injective in Hp.
  intros p1 p2 c1 c2 w1 w2 Hp1 Hp2 Hc1 Hc2 Hw1 Hw2 Heq.
  rewrite !truncate_string_slice in Heq.
  apply Hp; [| |done].
  - rewrite collect_unique_words_visited, foldl_read_words_elem.
    right. exists p1, c1. split; [done|]. split; [done|].
    by apply elem_of_list_to_set.
  - rewrite collect_unique_words_visited, foldl_read_words_elem.
    right. exists p2, c2. split; [done|]. split; [done|].
    by apply elem_of_list_to_set.
Qed.

Lemma global_width_keeps_words_distinct_witness :
  1 <= 4 /\
  forall p1 p2 content1 content2 w1 w2,
    p1 ∈ visited_files fixture_ps false
           (compile_exclusion_patterns [py "build"]) [py "src"] ->
    p2 ∈ visited_files fixture_ps false
           (compile_exclusion_patterns [py "build"]) [py "src"] ->
    read_text fixture_tree_fs p1 (py "utf-8") = Some content1 ->
    read_text fixture_tree_fs p2 (py "utf-8") = Some content2 ->
    w1 ∈ re_findall_words content1 ->
    w2 ∈ re_findall_words content2 ->
    truncate_string w1 4 = truncate_string w2 4 -> w1 = w2.
Proof.
  apply (global_width_keeps_words_distinct
           fixture_tree_fs fixture_ps [py "src"]
           (compile_exclusion_patterns [py "build"]) (py "utf-8") 80 4).
  vm_compute. reflexivity.
Defined.

Section follow_symlinks.
Implicit Types (d : directory) (top : str) (keep : str -> bool).

Lemma sublist_flat_map_ext {A B : Type} (f g : A -> list B) (l : list A) :
  Forall (fun x => f x `sublist_of` g x) l ->
  flat_map f l `sublist_of` flat_map g l.
Proof.
  induction 1 as [|x l Hx _ IH]; [done|]. simpl. by apply sublist_app.
Qed.

Lemma sublist_flat_map {A B : Type} (f : A -> list B) (l1 l2 : list A) :
  l1 `sublist_of` l2 -> flat_map f l1 `sublist_of` flat_map f l2.
Proof.
  induction 1 as [|x l1 l2 _ IH|x l1 l2 _ IH]; simpl; [done|..].
  - by apply sublist_app.
  - by apply sublist_inserts_l.
Qed.

Lemma walk_follow_sublist keep d : forall top,
  walk false keep top d `sublist_of` walk true keep top d.
Proof.
  induction d as [dirs files IH] using directory_nested_ind. intros top.
  rewrite !walk_unfold. apply sublist_skip, sublist_flat_map_ext.
  eapply Forall_impl; [exact IH|]. intros [dirname islink sub] Hsub.
  destruct (keep (path_join top dirname)); [|done].
  destruct islink; simpl; [apply sublist_nil_l | apply Hsub].
Qed.

End follow_symlinks.

(** X29. Following symbolic links only adds files: the files visited
    without following links are visited, in the same order, when links are
    followed.  [collect_unique_words] never follows links, so each word it
    collects is a word of a file that [process_files] visits, whatever
    [follow_symlinks] is. *)
Theorem visited_files_follow_symlinks
    (fs : file_system) (ps : path_system) (files : list str)
    (exclusion_patterns : list regex) (follow_symlinks : bool)
    (default_encoding : str) :
  visited_files ps false exclusion_patterns files
    `sublist_of` visited_files ps true exclusion_patterns files /\
  forall w,
    w ∈ collect_unique_words fs ps files exclusion_patterns default_encoding
    ->
    exists p content,
      p ∈ visited_files ps follow_symlinks exclusion_patterns files /\
      read_text fs p default_encoding = Some content /\
      w ∈ get_unique_words content.
Proof.
  assert (visited_files ps false exclusion_patterns files
            `sublist_of` visited_files ps true exclusion_patterns files)
    as Hsub.
  { unfold visited_files. apply sublist_flat_map_ext, Forall_forall.
    intros file_path _. cbv zeta.
    destruct (path_lookup ps _) as [[|d|]|]; try done.
    destruct (is_excluded _ _); [done|].
    unfold walked_files. apply sublist_flat_map, walk_follow_sublist. }
  split; [done|].
  intros w Hw. rewrite collect_unique_words_visited in Hw.
  apply foldl_read_words_elem in Hw as [Hw|(p & content & Hp & Hc & Hw)];
    [by apply not_elem_of_empty in Hw|].
  exists p, content. split; [|done].
  destruct follow_symlinks; [|done].
  by eapply elem_of_sublist.
Qed.

(** With [follow_symlinks], [process_files] also renders the files below
    symbolic links, whose words [collect_unique_words] has not seen: here
    the width found for the collected words is 1, and [cat] and [cow] are
    both cut to [c]. *)
Example process_files_follow_symlinks_fixture :
  let fs :=
    {| read_text := fun file_path _ =>
         if decide (file_path = py "/src/a.txt") then Some (py "cat")
         else if decide (file_path = py "/src/link/b.txt")
         then Some (py "cow") else None;
       relpath := fun file_path => Ok (drop 1 file_path) |} in
  let ps :=
    {| abspath := fun file_path => "/"%char :: file_path;
       path_lookup := fun full_path =>
         if decide (full_path = py "/src")
         then Some (IsDir (Directory
                             [Subdirectory (py "link") true
                                (Directory [] [py "b.txt"])]
                             [py "a.txt"]))
         else None |} in
  let unique_words := collect_unique_words fs ps [py "src"] [] (py "utf-8") in
  unique_words = {[ py "cat" ]} /\
  find_min_truncation_length unique_words 80 = Some 1 /\
  process_files fs ps [] [py "src"] [] true (py "utf-8") false true 80 []
                unique_words false
  = Ok (join [newline]
          [py "## src/a.txt"; py "```plaintext"; py "c"; py "```"; [];
           py "## src/link/b.txt"; py "```plaintext"; py "c"; py "```"; []]).
Proof. repeat split; vm_compute; reflexivity. Qed.

Example integer_text_fixture :
  integer_text (py "50") 50 /\ integer_text (py " 1_0 ") 10 /\
  integer_text (py "-3") (-3) /\ integer_text (py "+007") 7 /\
  (forall n, ~ integer_text (py "ten") n) /\
  (forall n, ~ integer_text (py "1__0") n) /\
  (forall n, ~ integer_text (py "5 0") n) /\
  (forall n, ~ integer_text [] n).
Proof.
  repeat split;
    try (apply py_int_integer_text; vm_compute; reflexivity);
    intros n Hn%py_int_integer_text; vm_compute in Hn; discriminate.
Qed.
